(** * xcc freestanding <stddef.h>: a shallow embedding and its contract

    The source is the single header [src/xcc/include/stddef.h].  It has no
    functions: it is a list of preprocessing directives and typedef
    declarations.  The embedding therefore has three layers:

    - the header itself, transcribed line by line as preprocessing tokens
      ([stddef_h]);
    - the part of the C translation pipeline that gives the header its
      meaning: conditional inclusion and macro replacement (ISO C11 6.10),
      declaration specifiers (6.7.2), the null pointer constant (6.3.2.3),
      integer conversions (6.3.1.3);
    - the target description (type widths and alignments) and the struct
      layout of the code generator, which the header has to agree with and
      which are not part of the header. *)

From Stdlib Require Import ZArith List String Bool Lia.
From stdpp Require Import base option list gmap strings.

Local Open Scope Z_scope.

(** ** Preprocessing tokens *)

Inductive keyword :=
| KW_typedef | KW_void | KW_char | KW_short | KW_int | KW_long
| KW_signed | KW_unsigned | KW_float | KW_double | KW_struct.

Inductive punct :=
| LPAREN | RPAREN | STAR | COMMA | SEMI | AMP | ARROW.

Inductive token :=
| Tk_kw (k : keyword)
| Tk_ident (x : string)
| Tk_num (n : Z)
| Tk_punct (p : punct).

#[global] Instance keyword_eq_dec : EqDecision keyword.
Proof. solve_decision. Defined.
#[global] Instance punct_eq_dec : EqDecision punct.
Proof. solve_decision. Defined.
#[global] Instance token_eq_dec : EqDecision token.
Proof. solve_decision. Defined.

(** ** The header, line by line

    Comments and blank lines are gone after translation phase 3; what is
    left of [stddef.h] are nine lines: five directives and four
    declarations.  [PP_undef] does not occur in the header; it is part of
    the line language because the lines around an inclusion may use it. *)

(** A macro: object-like without parameters, function-like with.  The
    replacement is a list of tokens; the white space between them, which a
    redefinition must repeat as well (C11 6.10.3p2), is not recorded. *)
Record macro := { m_params : option (list string); m_body : list token }.

#[global] Instance macro_eq_dec : EqDecision macro.
Proof. solve_decision. Defined.

Inductive pp_line :=
| PP_ifndef (name : string)
| PP_define (name : string) (m : macro)
| PP_undef (name : string)
| PP_endif
| PP_text (toks : list token).

(** The name of the include guard. *)
Definition _XCC_STDDEF_H : string := "_XCC_STDDEF_H".

(** [#define NULL ((void * )0)] *)
Definition NULL : macro :=
  {| m_params := None;
     m_body := [Tk_punct LPAREN; Tk_punct LPAREN; Tk_kw KW_void; Tk_punct STAR;
                Tk_punct RPAREN; Tk_num 0; Tk_punct RPAREN] |}.

(** [#define offsetof(type, member) __builtin_offsetof(type, member)] *)
Definition offsetof : macro :=
  {| m_params := Some ["type"; "member"]%string;
     m_body := [Tk_ident "__builtin_offsetof"; Tk_punct LPAREN; Tk_ident "type";
                Tk_punct COMMA; Tk_ident "member"; Tk_punct RPAREN] |}.

Definition stddef_h : list pp_line :=
  [ PP_ifndef _XCC_STDDEF_H;
    PP_define _XCC_STDDEF_H {| m_params := None; m_body := [] |};
    PP_text [Tk_kw KW_typedef; Tk_kw KW_long; Tk_ident "ptrdiff_t"; Tk_punct SEMI];
    PP_text [Tk_kw KW_typedef; Tk_kw KW_unsigned; Tk_kw KW_long;
             Tk_ident "size_t"; Tk_punct SEMI];
    PP_text [Tk_kw KW_typedef; Tk_kw KW_int; Tk_ident "wchar_t"; Tk_punct SEMI];
    PP_define "NULL" NULL;
    PP_define "offsetof" offsetof;
    PP_text [Tk_kw KW_typedef; Tk_kw KW_long; Tk_ident "max_align_t"; Tk_punct SEMI];
    PP_endif ].

(** ** Macro replacement (C11 6.10.3) *)

(** The arguments of a function-like macro invocation: the tokens after the
    opening parenthesis, split at the commas of nesting depth zero, up to
    the matching closing parenthesis.  [cur] holds the current argument in
    reverse, [acc] the finished arguments in reverse. *)
Fixpoint collect_args (depth : nat) (cur : list token) (acc : list (list token))
    (ts : list token) : option (list (list token) * list token) :=
  match ts with
  | [] => None
  | Tk_punct RPAREN :: rest =>
      match depth with
      | O => Some (rev (rev cur :: acc), rest)
      | S d => collect_args d (Tk_punct RPAREN :: cur) acc rest
      end
  | Tk_punct LPAREN :: rest => collect_args (S depth) (Tk_punct LPAREN :: cur) acc rest
  | Tk_punct COMMA :: rest =>
      match depth with
      | O => collect_args O [] (rev cur :: acc) rest
      | S _ => collect_args depth (Tk_punct COMMA :: cur) acc rest
      end
  | t :: rest => collect_args depth (t :: cur) acc rest
  end.

(** The argument bound to parameter [x], if [x] is a parameter. *)
Fixpoint param_arg (ps : list string) (args : list (list token)) (x : string)
    : option (list token) :=
  match ps, args with
  | p :: ps', a :: args' => if String.eqb p x then Some a else param_arg ps' args' x
  | _, _ => None
  end.

Fixpoint subst_params (ps : list string) (args : list (list token))
    (body : list token) : list token :=
  match body with
  | [] => []
  | Tk_ident x :: rest =>
      match param_arg ps args x with
      | Some a => a ++ subst_params ps args rest
      | None => Tk_ident x :: subst_params ps args rest
      end
  | t :: rest => t :: subst_params ps args rest
  end.

(** A macro without parameters is invoked with empty parentheses: the one
    empty argument that [collect_args] finds there is no argument. *)
Definition invocation_args (ps : list string) (raw : list (list token))
    : list (list token) :=
  match ps, raw with
  | [], [[]] => []
  | _, _ => raw
  end.

Fixpoint expand_all (f : list token -> option (list token))
    (args : list (list token)) : option (list (list token)) :=
  match args with
  | [] => Some []
  | a :: rest =>
      match f a, expand_all f rest with
      | Some a', Some rest' => Some (a' :: rest')
      | _, _ => None
      end
  end.

(** Rescanning and further replacement.  [hide] are the macros being
    replaced, which are not replaced again (6.10.3.4p2).  The replacement
    of a macro is rescanned on its own, the arguments are fully replaced
    before substitution (6.10.3.1).  [fuel] bounds the number of tokens
    scanned plus the nesting of replacements; running out of it, an
    unterminated invocation and a wrong number of arguments give [None].

    Only identifiers are looked up.  A keyword token is passed on as it
    is: this is macro replacement for programs that do not define a
    keyword as a macro, which a program must not do where it includes a
    standard header (C11 7.1.2p4).  The properties below that range over
    all macro environments name the keywords they rely on
    ([keyword_name]). *)
Fixpoint expand (fuel : nat) (M : gmap string macro) (hide : list string)
    (ts : list token) : option (list token) :=
  match fuel with
  | O => None
  | S fuel' =>
      match ts with
      | [] => Some []
      | Tk_ident x :: rest =>
          let keep := cons (Tk_ident x) <$> expand fuel' M hide rest in
          match M !! x with
          | None => keep
          | Some {| m_params := None; m_body := body |} =>
              if bool_decide (x ∈ hide) then keep
              else
                match expand fuel' M (x :: hide) body, expand fuel' M hide rest with
                | Some r1, Some r2 => Some (r1 ++ r2)
                | _, _ => None
                end
          | Some {| m_params := Some ps; m_body := body |} =>
              match rest with
              | Tk_punct LPAREN :: rest' =>
                  if bool_decide (x ∈ hide) then keep
                  else
                    match collect_args O [] [] rest' with
                    | Some (raw, rest'') =>
                        let args := invocation_args ps raw in
                        if bool_decide (length args = length ps) then
                          match expand_all (expand fuel' M hide) args with
                          | Some args' =>
                              match expand fuel' M (x :: hide) (subst_params ps args' body),
                                    expand fuel' M hide rest'' with
                              | Some r1, Some r2 => Some (r1 ++ r2)
                              | _, _ => None
                              end
                          | None => None
                          end
                        else None
                    | None => None
                    end
              | _ => keep
              end
          end
      | t :: rest => cons t <$> expand fuel' M hide rest
      end
  end.

(** ** Conditional inclusion and macro definition (C11 6.10.1, 6.10.3) *)

Inductive diagnostic :=
| Diag_macro_redefined (name : string)
| Diag_endif_without_if
| Diag_bad_invocation
| Diag_typedef_redefined (name : string)
| Diag_syntax.

#[global] Instance diagnostic_eq_dec : EqDecision diagnostic.
Proof. solve_decision. Defined.

(** [pp_conds] is the stack of open conditional groups; an entry is [true]
    when the lines of that group are processed and [false] when they are
    skipped.  A group opened inside a skipped group is skipped. *)
Record pp_state := {
  pp_macros : gmap string macro;
  pp_conds : list bool;
  pp_out : list token;
  pp_diags : list diagnostic }.

Definition pp_init : pp_state :=
  {| pp_macros := ∅; pp_conds := []; pp_out := []; pp_diags := [] |}.

Definition pp_active (st : pp_state) : bool :=
  match pp_conds st with
  | [] => true
  | b :: _ => b
  end.

(** Translation limit on rescanning one line of text. *)
Definition pp_fuel : nat := 128.

Definition pp_step (st : pp_state) (l : pp_line) : pp_state :=
  match l with
  | PP_ifndef x =>
      {| pp_macros := pp_macros st;
         pp_conds := (pp_active st && bool_decide (pp_macros st !! x = None)) :: pp_conds st;
         pp_out := pp_out st;
         pp_diags := pp_diags st |}
  | PP_endif =>
      match pp_conds st with
      | [] => {| pp_macros := pp_macros st; pp_conds := [];
                 pp_out := pp_out st;
                 pp_diags := pp_diags st ++ [Diag_endif_without_if] |}
      | _ :: cs => {| pp_macros := pp_macros st; pp_conds := cs;
                      pp_out := pp_out st; pp_diags := pp_diags st |}
      end
  | PP_define x m =>
      if pp_active st then
        {| pp_macros := <[x := m]> (pp_macros st);
           pp_conds := pp_conds st;
           pp_out := pp_out st;
           pp_diags :=
             match pp_macros st !! x with
             | Some m' => if bool_decide (m' = m) then pp_diags st
                          else pp_diags st ++ [Diag_macro_redefined x]
             | None => pp_diags st
             end |}
      else st
  | PP_undef x =>
      if pp_active st then
        {| pp_macros := delete x (pp_macros st); pp_conds := pp_conds st;
           pp_out := pp_out st; pp_diags := pp_diags st |}
      else st
  | PP_text ts =>
      if pp_active st then
        match expand pp_fuel (pp_macros st) [] ts with
        | Some ts' => {| pp_macros := pp_macros st; pp_conds := pp_conds st;
                         pp_out := pp_out st ++ ts'; pp_diags := pp_diags st |}
        | None => {| pp_macros := pp_macros st; pp_conds := pp_conds st;
                     pp_out := pp_out st;
                     pp_diags := pp_diags st ++ [Diag_bad_invocation] |}
        end
      else st
  end.

Definition preprocess (st : pp_state) (ls : list pp_line) : pp_state :=
  fold_left pp_step ls st.

(** [#include <stddef.h>] at a point where the preprocessor is in state [st]. *)
Definition include_stddef (st : pp_state) : pp_state := preprocess st stddef_h.

(** ** Types *)

Inductive int_rank := I_char | I_short | I_int | I_long | I_llong.
Inductive signedness := Signed | Unsigned.
Inductive float_kind := F_float | F_double | F_ldouble.

(** [Tchar] is plain [char]; [Tinteger I_char _] are [signed char] and
    [unsigned char]. *)
Inductive ctype :=
| Tvoid
| Tchar
| Tinteger (r : int_rank) (s : signedness)
| Tfloating (k : float_kind)
| Tpointer (t : ctype)
| Tfunction (ret : ctype) (params : ctypelist)
| Tstruct (tag : string)
with ctypelist :=
| Tnil
| Tcons (t : ctype) (ts : ctypelist).

#[global] Instance int_rank_eq_dec : EqDecision int_rank.
Proof. solve_decision. Defined.
#[global] Instance signedness_eq_dec : EqDecision signedness.
Proof. solve_decision. Defined.
#[global] Instance float_kind_eq_dec : EqDecision float_kind.
Proof. solve_decision. Defined.

Fixpoint ctype_eq (a b : ctype) {struct a} : {a = b} + {a <> b}
with ctypelist_eq (a b : ctypelist) {struct a} : {a = b} + {a <> b}.
Proof.
  - decide equality;
      first [ apply int_rank_eq_dec | apply signedness_eq_dec
            | apply float_kind_eq_dec | apply string_dec | apply ctypelist_eq ].
  - decide equality.
Defined.

#[global] Instance ctype_eq_dec : EqDecision ctype := ctype_eq.

Definition is_object_type (t : ctype) : bool :=
  match t with
  | Tfunction _ _ => false
  | _ => true
  end.

Definition is_signed_integer (t : ctype) : bool :=
  match t with
  | Tinteger _ Signed => true
  | _ => false
  end.

Definition is_unsigned_integer (t : ctype) : bool :=
  match t with
  | Tinteger _ Unsigned => true
  | _ => false
  end.

(** ** Declarations: the typedef lines of the header *)

(** How often a keyword occurs among the declaration specifiers. *)
Definition occurrences (k : keyword) (ks : list keyword) : nat :=
  length (filter (fun k' => k' = k) ks).

(** The type a multiset of type specifiers denotes (C11 6.7.2p2). *)
Definition resolve_specifiers (ks : list keyword) : option ctype :=
  let n k := occurrences k ks in
  if negb (Nat.eqb (n KW_typedef + n KW_struct) 0) then None else
  match n KW_signed, n KW_unsigned with
  | O, O =>
      match n KW_void, n KW_char, n KW_short, n KW_int, n KW_long, n KW_float, n KW_double with
      | 1, 0, 0, 0, 0, 0, 0 => Some Tvoid
      | 0, 1, 0, 0, 0, 0, 0 => Some Tchar
      | 0, 0, 1, (0 | 1), 0, 0, 0 => Some (Tinteger I_short Signed)
      | 0, 0, 0, 1, 0, 0, 0 => Some (Tinteger I_int Signed)
      | 0, 0, 0, (0 | 1), 1, 0, 0 => Some (Tinteger I_long Signed)
      | 0, 0, 0, (0 | 1), 2, 0, 0 => Some (Tinteger I_llong Signed)
      | 0, 0, 0, 0, 0, 1, 0 => Some (Tfloating F_float)
      | 0, 0, 0, 0, 0, 0, 1 => Some (Tfloating F_double)
      | 0, 0, 0, 0, 1, 0, 1 => Some (Tfloating F_ldouble)
      | _, _, _, _, _, _, _ => None
      end%nat
  | sg, us =>
      match (sg + us)%nat with
      | 1%nat =>
          let s := if Nat.eqb us 1 then Unsigned else Signed in
          match n KW_void, n KW_char, n KW_short, n KW_int, n KW_long, n KW_float, n KW_double with
          | 0, 1, 0, 0, 0, 0, 0 => Some (Tinteger I_char s)
          | 0, 0, 1, (0 | 1), 0, 0, 0 => Some (Tinteger I_short s)
          | 0, 0, 0, (0 | 1), 0, 0, 0 => Some (Tinteger I_int s)
          | 0, 0, 0, (0 | 1), 1, 0, 0 => Some (Tinteger I_long s)
          | 0, 0, 0, (0 | 1), 2, 0, 0 => Some (Tinteger I_llong s)
          | _, _, _, _, _, _, _ => None
          end%nat
      | _ => None
      end
  end.

(** The leading run of keywords of a token list. *)
Fixpoint take_keywords (ts : list token) : list keyword * list token :=
  match ts with
  | Tk_kw k :: rest => let '(ks, rest') := take_keywords rest in (k :: ks, rest')
  | _ => ([], ts)
  end.

Fixpoint parse_stars (t : ctype) (ts : list token) : ctype * list token :=
  match ts with
  | Tk_punct STAR :: rest => parse_stars (Tpointer t) rest
  | _ => (t, ts)
  end.

(** A type name: [struct tag], a typedef name or type specifiers, followed
    by pointer declarators.  [E] are the typedef names in scope. *)
Definition parse_type_name (E : gmap string ctype) (ts : list token)
    : option (ctype * list token) :=
  match ts with
  | Tk_kw KW_struct :: Tk_ident tag :: rest => Some (parse_stars (Tstruct tag) rest)
  | Tk_ident x :: rest =>
      match E !! x with
      | Some t => Some (parse_stars t rest)
      | None => None
      end
  | _ =>
      let '(ks, rest) := take_keywords ts in
      match resolve_specifiers ks with
      | Some t => Some (parse_stars t rest)
      | None => None
      end
  end.

(** The tokens of a translation unit, cut after every semicolon. *)
Fixpoint split_declarations (cur : list token) (ts : list token) : list (list token) :=
  match ts with
  | [] => match cur with [] => [] | _ => [rev cur] end
  | Tk_punct SEMI :: rest => rev cur :: split_declarations [] rest
  | t :: rest => split_declarations (t :: cur) rest
  end.

Record tu_env := {
  typedefs : gmap string ctype;
  sema_diags : list diagnostic }.

Definition tu_init : tu_env := {| typedefs := ∅; sema_diags := [] |}.

(** [typedef T x;]: a typedef name may be declared again only to denote
    the same type (C11 6.7p3). *)
Definition declare (env : tu_env) (d : list token) : tu_env :=
  match d with
  | Tk_kw KW_typedef :: rest =>
      match parse_type_name (typedefs env) rest with
      | Some (t, [Tk_ident x]) =>
          match typedefs env !! x with
          | None => {| typedefs := <[x := t]> (typedefs env); sema_diags := sema_diags env |}
          | Some t' =>
              if bool_decide (t' = t) then env
              else {| typedefs := typedefs env;
                      sema_diags := sema_diags env ++ [Diag_typedef_redefined x] |}
          end
      | _ => {| typedefs := typedefs env; sema_diags := sema_diags env ++ [Diag_syntax] |}
      end
  | _ => {| typedefs := typedefs env; sema_diags := sema_diags env ++ [Diag_syntax] |}
  end.

Definition translate (ts : list token) : tu_env :=
  fold_left declare (split_declarations [] ts) tu_init.

(** The translation unit that consists of [#include <stddef.h>]. *)
Definition stddef_pp : pp_state := include_stddef pp_init.
Definition stddef_tu : tu_env := translate (pp_out stddef_pp).

(** What a name of the header resolves to. *)
Definition resolve (x : string) : option ctype := typedefs stddef_tu !! x.

(** The four type names of the header.  ([Tvoid] stands for a name that
    does not resolve; [typedefs_resolve] below shows that all four do.) *)
Definition ptrdiff_t : ctype := default Tvoid (resolve "ptrdiff_t").
Definition size_t : ctype := default Tvoid (resolve "size_t").
Definition wchar_t : ctype := default Tvoid (resolve "wchar_t").
Definition max_align_t : ctype := default Tvoid (resolve "max_align_t").

(** ** The target description *)

(** Modelled from the spec: the widths and alignments of the built-in types,
    which are "target-ABI decisions external to this file", owned by the
    code generator.  They are a parameter of everything below.  The size
    and alignment of [char] are 1 (C11 6.5.3.4p4). *)
Record target := {
  char_signed : bool;
  sz_short : Z; sz_int : Z; sz_long : Z; sz_llong : Z;
  sz_float : Z; sz_double : Z; sz_ldouble : Z;
  sz_ptr : Z;
  al_short : Z; al_int : Z; al_long : Z; al_llong : Z;
  al_float : Z; al_double : Z; al_ldouble : Z;
  al_ptr : Z }.

(** What C11 5.2.4.2.1 and 6.2.5p8 require of every target: the minimum
    widths (16, 16, 32 and 64 bits), ranks ordered by size, positive
    alignments. *)
Record wf_target (tgt : target) : Prop := {
  wf_short : 2 <= sz_short tgt;
  wf_int : sz_short tgt <= sz_int tgt;
  wf_long : 4 <= sz_long tgt /\ sz_int tgt <= sz_long tgt;
  wf_llong : 8 <= sz_llong tgt /\ sz_long tgt <= sz_llong tgt;
  wf_floats : 0 < sz_float tgt /\ 0 < sz_double tgt /\ 0 < sz_ldouble tgt;
  wf_ptr : 0 < sz_ptr tgt;
  wf_align :
    0 < al_short tgt /\ 0 < al_int tgt /\ 0 < al_long tgt /\ 0 < al_llong tgt /\
    0 < al_float tgt /\ 0 < al_double tgt /\ 0 < al_ldouble tgt /\ 0 < al_ptr tgt }.

(** Three data models, for the examples.  LP64 with an 8-byte [long double]
    (Apple arm64), LP64 with a 16-byte one (System V x86-64), and LLP64
    (64-bit Windows), where [long] is narrower than a pointer. *)
Definition lp64 : target :=
  {| char_signed := true;
     sz_short := 2; sz_int := 4; sz_long := 8; sz_llong := 8;
     sz_float := 4; sz_double := 8; sz_ldouble := 8; sz_ptr := 8;
     al_short := 2; al_int := 4; al_long := 8; al_llong := 8;
     al_float := 4; al_double := 8; al_ldouble := 8; al_ptr := 8 |}.

Definition lp64_sysv : target :=
  {| char_signed := true;
     sz_short := 2; sz_int := 4; sz_long := 8; sz_llong := 8;
     sz_float := 4; sz_double := 8; sz_ldouble := 16; sz_ptr := 8;
     al_short := 2; al_int := 4; al_long := 8; al_llong := 8;
     al_float := 4; al_double := 8; al_ldouble := 16; al_ptr := 8 |}.

Definition llp64 : target :=
  {| char_signed := true;
     sz_short := 2; sz_int := 4; sz_long := 4; sz_llong := 8;
     sz_float := 4; sz_double := 8; sz_ldouble := 8; sz_ptr := 8;
     al_short := 2; al_int := 4; al_long := 4; al_llong := 8;
     al_float := 4; al_double := 8; al_ldouble := 8; al_ptr := 8 |}.

(** Modelled from the spec: [ptrdiff_t] and [size_t] are to "resolve to the
    compiler's native signed (unsigned) word type", whose "width must equal
    the compiler target's pointer width".  The header picks [long]; the
    targets it is written for are those where [long] is that word type. *)
Definition long_is_word (tgt : target) : Prop := sz_long tgt = sz_ptr tgt.

Definition sizeof_rank (tgt : target) (r : int_rank) : Z :=
  match r with
  | I_char => 1
  | I_short => sz_short tgt
  | I_int => sz_int tgt
  | I_long => sz_long tgt
  | I_llong => sz_llong tgt
  end.

Definition alignof_rank (tgt : target) (r : int_rank) : Z :=
  match r with
  | I_char => 1
  | I_short => al_short tgt
  | I_int => al_int tgt
  | I_long => al_long tgt
  | I_llong => al_llong tgt
  end.

(** ** Struct layout *)

Record member_layout := { ml_name : string; ml_type : ctype; ml_offset : Z }.

Record struct_layout := {
  sl_members : list member_layout;
  sl_size : Z;
  sl_align : Z }.

(** [sizeof] and [alignof]; [None] for incomplete and function types.  An
    unsigned integer type has the size and alignment of the signed type of
    its rank (C11 6.2.5p6).  [L] are the structs laid out so far. *)
Definition sizeof (tgt : target) (L : gmap string struct_layout) (t : ctype) : option Z :=
  match t with
  | Tvoid => None
  | Tchar => Some 1
  | Tinteger r _ => Some (sizeof_rank tgt r)
  | Tfloating F_float => Some (sz_float tgt)
  | Tfloating F_double => Some (sz_double tgt)
  | Tfloating F_ldouble => Some (sz_ldouble tgt)
  | Tpointer _ => Some (sz_ptr tgt)
  | Tfunction _ _ => None
  | Tstruct tag => sl_size <$> L !! tag
  end.

Definition alignof (tgt : target) (L : gmap string struct_layout) (t : ctype) : option Z :=
  match t with
  | Tvoid => None
  | Tchar => Some 1
  | Tinteger r _ => Some (alignof_rank tgt r)
  | Tfloating F_float => Some (al_float tgt)
  | Tfloating F_double => Some (al_double tgt)
  | Tfloating F_ldouble => Some (al_ldouble tgt)
  | Tpointer _ => Some (al_ptr tgt)
  | Tfunction _ _ => None
  | Tstruct tag => sl_align <$> L !! tag
  end.

Definition align_up (n a : Z) : Z := (n + a - 1) / a * a.

(** Modelled from the spec: "the code generator's actual layout algorithm
    (including alignment-driven padding)".  The code generator is not part
    of the header; this is the layout the spec describes: members in
    declaration order, each at the next offset that is a multiple of its
    alignment.  Bit-fields are not modelled.  [off] is the first free
    offset, [al] the strictest alignment met so far; the result are the
    members, the end offset and the alignment. *)
Fixpoint layout_members (tgt : target) (L : gmap string struct_layout)
    (off al : Z) (ms : list (string * ctype)) : option (list member_layout * Z * Z) :=
  match ms with
  | [] => Some ([], off, al)
  | (x, t) :: rest =>
      match sizeof tgt L t, alignof tgt L t with
      | Some sz, Some a =>
          let o := align_up off a in
          match layout_members tgt L (o + sz) (Z.max al a) rest with
          | Some (ls, e, al') =>
              Some ({| ml_name := x; ml_type := t; ml_offset := o |} :: ls, e, al')
          | None => None
          end
      | _, _ => None
      end
  end.

(** Modelled from the spec: the layout of a whole struct, as aligned as
    its most aligned member and padded to a multiple of that alignment. *)
Definition layout_struct (tgt : target) (L : gmap string struct_layout)
    (ms : list (string * ctype)) : option struct_layout :=
  match layout_members tgt L 0 1 ms with
  | Some (ls, e, al) => Some {| sl_members := ls; sl_size := align_up e al; sl_align := al |}
  | None => None
  end.

(** [struct tag { ms };] *)
Definition define_struct (tgt : target) (L : gmap string struct_layout)
    (tag : string) (ms : list (string * ctype)) : option (gmap string struct_layout) :=
  match layout_struct tgt L ms with
  | Some sl => Some (<[tag := sl]> L)
  | None => None
  end.

Fixpoint find_member (m : string) (ls : list member_layout) : option member_layout :=
  match ls with
  | [] => None
  | l :: rest => if String.eqb (ml_name l) m then Some l else find_member m rest
  end.

(** Modelled from the spec: the offset the code generator uses to address
    member [m] of [struct tag], read off the layout of the struct. *)
Definition member_offset (L : gmap string struct_layout) (tag m : string) : option Z :=
  match L !! tag with
  | Some sl => ml_offset <$> find_member m (sl_members sl)
  | None => None
  end.

(** Modelled from the spec: the compiler intrinsic [__builtin_offsetof],
    which is not part of the header.  It "computes member offset using the
    code generator's actual layout algorithm": it is defined on struct
    types and gives the offset of the layout. *)
Definition builtin_offsetof (L : gmap string struct_layout) (t : ctype) (m : string)
    : option Z :=
  match t with
  | Tstruct tag => member_offset L tag m
  | _ => None
  end.

Definition member_type (L : gmap string struct_layout) (tag m : string) : option ctype :=
  match L !! tag with
  | Some sl => ml_type <$> find_member m (sl_members sl)
  | None => None
  end.

(** ** Integer types: ranges and conversions (C11 6.2.6.2, 6.3.1.3) *)

Definition int_bits (tgt : target) (r : int_rank) : Z := 8 * sizeof_rank tgt r.

Definition int_min (tgt : target) (r : int_rank) (s : signedness) : Z :=
  match s with
  | Signed => - 2 ^ (int_bits tgt r - 1)
  | Unsigned => 0
  end.

Definition int_max (tgt : target) (r : int_rank) (s : signedness) : Z :=
  match s with
  | Signed => 2 ^ (int_bits tgt r - 1) - 1
  | Unsigned => 2 ^ int_bits tgt r - 1
  end.

(** Conversion of the value [v] to the integer type of rank [r] and
    signedness [s]: unchanged when representable, reduced modulo [2^bits]
    otherwise (for signed types this is the usual implementation-defined
    choice, two's complement wrap-around). *)
Definition convert_int (tgt : target) (r : int_rank) (s : signedness) (v : Z) : Z :=
  match s with
  | Unsigned => v mod 2 ^ int_bits tgt r
  | Signed =>
      (v + 2 ^ (int_bits tgt r - 1)) mod 2 ^ int_bits tgt r - 2 ^ (int_bits tgt r - 1)
  end.

(** [(t)v] for an integer value [v]; [None] when [t] is not an integer
    type. *)
Definition cast_int (tgt : target) (t : ctype) (v : Z) : option Z :=
  match t with
  | Tchar => Some (convert_int tgt I_char (if char_signed tgt then Signed else Unsigned) v)
  | Tinteger r s => Some (convert_int tgt r s v)
  | _ => None
  end.

(** The values of an integer type. *)
Definition in_range (tgt : target) (t : ctype) (v : Z) : Prop :=
  match t with
  | Tchar =>
      let s := if char_signed tgt then Signed else Unsigned in
      int_min tgt I_char s <= v <= int_max tgt I_char s
  | Tinteger r s => int_min tgt r s <= v <= int_max tgt r s
  | _ => False
  end.

(** ** Objects and addresses *)

Definition ptr_bits (tgt : target) : Z := 8 * sz_ptr tgt.

Record allocation := { a_base : Z; a_size : Z }.

(** Modelled from the spec: the objects that pointers point into.
    [ptrdiff_t] is "wide enough to hold the difference between two
    addresses within the same allocation", and the null pointer compares
    "unequal to every valid non-null pointer".  An allocation therefore
    does not start at address zero, lies inside the address space, and is
    no larger than [PTRDIFF_MAX]. *)
Definition valid_allocation (tgt : target) (a : allocation) : Prop :=
  0 < a_base a /\ 0 < a_size a /\
  a_base a + a_size a <= 2 ^ ptr_bits tgt /\
  in_range tgt ptrdiff_t (a_size a).

(** The addresses of the bytes of an allocation, and the one past its
    end. *)
Definition in_allocation (a : allocation) (p : Z) : Prop :=
  a_base a <= p <= a_base a + a_size a.

(** [p - q] for two [char *] into one allocation: the difference of the
    addresses, held in [ptrdiff_t].  Where the difference is not
    representable in [ptrdiff_t] -- the conversion would change it -- the
    behaviour is undefined (C11 6.5.6p9): [None]. *)
Definition ptr_sub (tgt : target) (p q : Z) : option Z :=
  match cast_int tgt ptrdiff_t (p - q) with
  | Some d => if d =? p - q then Some d else None
  | None => None
  end.

(** ** Expressions

    The expressions the two macros of the header expand to, and the
    classic [offsetof] idiom the header does not use,
    [((size_t)&((type * )0)->member)]. *)

Inductive expr :=
| E_int (n : Z)
| E_var (x : string)
| E_paren (e : expr)
| E_cast (t : ctype) (e : expr)
| E_offsetof (t : ctype) (m : string)
| E_addr (e : expr)
| E_arrow (e : expr) (m : string).

Fixpoint parse_postfix (e : expr) (ts : list token) : expr * list token :=
  match ts with
  | Tk_punct ARROW :: Tk_ident m :: rest => parse_postfix (E_arrow e m) rest
  | _ => (e, ts)
  end.

(** Does a parenthesis open a type name (a cast) or an expression? *)
Definition starts_type_name (E : gmap string ctype) (ts : list token) : bool :=
  match ts with
  | Tk_kw _ :: _ => true
  | Tk_ident x :: _ => bool_decide (E !! x <> None)
  | _ => false
  end.

(** Cast expressions (C11 6.5.4) over the tokens above.  [fuel] bounds the
    nesting of parentheses, casts and [&]. *)
Fixpoint parse_expr (fuel : nat) (E : gmap string ctype) (ts : list token)
    : option (expr * list token) :=
  match fuel with
  | O => None
  | S fuel' =>
      match ts with
      | Tk_num n :: rest => Some (parse_postfix (E_int n) rest)
      | Tk_ident x :: rest =>
          if String.eqb x "__builtin_offsetof" then
            match rest with
            | Tk_punct LPAREN :: rest1 =>
                match parse_type_name E rest1 with
                | Some (t, Tk_punct COMMA :: Tk_ident m :: Tk_punct RPAREN :: rest2) =>
                    Some (parse_postfix (E_offsetof t m) rest2)
                | _ => None
                end
            | _ => None
            end
          else Some (parse_postfix (E_var x) rest)
      | Tk_punct AMP :: rest =>
          match parse_expr fuel' E rest with
          | Some (e, rest1) => Some (E_addr e, rest1)
          | None => None
          end
      | Tk_punct LPAREN :: rest =>
          if starts_type_name E rest then
            match parse_type_name E rest with
            | Some (t, Tk_punct RPAREN :: rest1) =>
                match parse_expr fuel' E rest1 with
                | Some (e, rest2) => Some (E_cast t e, rest2)
                | None => None
                end
            | _ => None
            end
          else
            match parse_expr fuel' E rest with
            | Some (e, Tk_punct RPAREN :: rest1) => Some (parse_postfix (E_paren e) rest1)
            | _ => None
            end
      | _ => None
      end
  end.

(** A whole token list as one expression. *)
Definition parse_full (E : gmap string ctype) (ts : list token) : option expr :=
  match parse_expr (S (length ts)) E ts with
  | Some (e, []) => Some e
  | _ => None
  end.

(** The type of an integer constant: the first of [int], [long],
    [long long] that holds it (C11 6.4.4.1p5). *)
Definition type_of_constant (tgt : target) (n : Z) : ctype :=
  if n <=? int_max tgt I_int Signed then Tinteger I_int Signed
  else if n <=? int_max tgt I_long Signed then Tinteger I_long Signed
  else Tinteger I_llong Signed.

(** Typing.  There are no variables in scope.  [size_ty] is the type of the
    result of [__builtin_offsetof], the compiler's size type. *)
Fixpoint type_of (tgt : target) (L : gmap string struct_layout) (size_ty : ctype)
    (e : expr) : option ctype :=
  match e with
  | E_int n => Some (type_of_constant tgt n)
  | E_var _ => None
  | E_paren e1 => type_of tgt L size_ty e1
  | E_cast t e1 =>
      match type_of tgt L size_ty e1 with
      | Some _ => Some t
      | None => None
      end
  | E_offsetof t m =>
      match builtin_offsetof L t m with
      | Some _ => Some size_ty
      | None => None
      end
  | E_addr e1 => Tpointer <$> type_of tgt L size_ty e1
  | E_arrow e1 m =>
      match type_of tgt L size_ty e1 with
      | Some (Tpointer (Tstruct tag)) => member_type L tag m
      | _ => None
      end
  end.

Inductive value :=
| V_int (n : Z)
| V_ptr (a : Z).

#[global] Instance value_eq_dec : EqDecision value.
Proof. solve_decision. Defined.

(** Evaluation of constant expressions, as the compiler folds them.
    [E_offsetof] is the intrinsic [builtin_offsetof].
    [&e->m] is the address computation the code generator emits for a
    member access: the value of [e] plus the offset of [m]. *)
Fixpoint eval (tgt : target) (L : gmap string struct_layout) (size_ty : ctype)
    (e : expr) : option value :=
  match e with
  | E_int n => Some (V_int n)
  | E_var _ => None
  | E_paren e1 => eval tgt L size_ty e1
  | E_cast t e1 =>
      match eval tgt L size_ty e1 with
      | Some (V_int n) =>
          match t with
          | Tpointer _ => Some (V_ptr (n mod 2 ^ ptr_bits tgt))
          | _ => V_int <$> cast_int tgt t n
          end
      | Some (V_ptr a) =>
          match t with
          | Tpointer _ => Some (V_ptr a)
          | _ => V_int <$> cast_int tgt t a
          end
      | None => None
      end
  | E_offsetof t m => V_int <$> builtin_offsetof L t m
  | E_addr (E_arrow e1 m) =>
      match type_of tgt L size_ty e1, eval tgt L size_ty e1 with
      | Some (Tpointer (Tstruct tag)), Some (V_ptr a) =>
          match member_offset L tag m with
          | Some o => Some (V_ptr ((a + o) mod 2 ^ ptr_bits tgt))
          | None => None
          end
      | _, _ => None
      end
  | E_addr _ => None
  | E_arrow _ _ => None
  end.

(** [sizeof e] for an expression operand: the size of its type. *)
Definition sizeof_expr (tgt : target) (L : gmap string struct_layout) (size_ty : ctype)
    (e : expr) : option Z :=
  match type_of tgt L size_ty e with
  | Some t => sizeof tgt L t
  | None => None
  end.

(** ** Null pointers (C11 6.3.2.3p3, 6.5.9, 6.5.16.1) *)

(** An integer constant expression with the value 0. *)
Fixpoint is_zero_constant (e : expr) : bool :=
  match e with
  | E_int n => n =? 0
  | E_paren e1 => is_zero_constant e1
  | E_cast (Tchar | Tinteger _ _) e1 => is_zero_constant e1
  | _ => false
  end.

(** "An integer constant expression with the value 0, or such an
    expression cast to type [void *], is called a null pointer constant." *)
Fixpoint is_null_pointer_constant (e : expr) : bool :=
  match e with
  | E_paren e1 => is_null_pointer_constant e1
  | E_cast (Tpointer Tvoid) e1 => is_zero_constant e1
  | _ => is_zero_constant e
  end.

Definition null_pointer : value := V_ptr 0.

(** May a value of expression [e], of type [src], be assigned to an object
    of type [dst] without a diagnostic?  Integer types convert to each
    other; a null pointer constant converts to any pointer type; otherwise
    a pointer converts to a pointer to the same type, and [void *] to and
    from pointers to object types only. *)
Definition assignable (dst : ctype) (e : expr) (src : ctype) : bool :=
  match dst, src with
  | (Tchar | Tinteger _ _ | Tfloating _), (Tchar | Tinteger _ _ | Tfloating _) => true
  | Tpointer d, _ =>
      is_null_pointer_constant e ||
      match src with
      | Tpointer s =>
          bool_decide (d = s)
          || (bool_decide (d = Tvoid) && is_object_type s)
          || (bool_decide (s = Tvoid) && is_object_type d)
      | _ => false
      end
  | _, _ => false
  end.

(** The value stored by the assignment of [v] to an object of pointer
    type. *)
Definition to_pointer (tgt : target) (v : value) : value :=
  match v with
  | V_int n => V_ptr (n mod 2 ^ ptr_bits tgt)
  | V_ptr a => V_ptr a
  end.

(** [==] on pointers. *)
Definition ptr_eq (v w : value) : option bool :=
  match v, w with
  | V_ptr a, V_ptr b => Some (a =? b)
  | _, _ => None
  end.

(** A pointer to a byte of an object, or one past its end. *)
Definition valid_pointer (tgt : target) (v : value) : Prop :=
  exists a p, v = V_ptr p /\ valid_allocation tgt a /\ in_allocation a p.

(** The default argument promotions, applied to the arguments that match
    the ellipsis of a variadic function (C11 6.5.2.2p6-7). *)
Definition default_argument_promotion (tgt : target) (t : ctype) : ctype :=
  match t with
  | Tchar => Tinteger I_int Signed
  | Tinteger ((I_char | I_short) as r) s =>
      if int_max tgt I_int Signed <? int_max tgt r s
      then Tinteger I_int Unsigned else Tinteger I_int Signed
  | Tfloating F_float => Tfloating F_double
  | _ => t
  end.

(** The type in which the operands of [==] are compared when one of them
    has type [t1] and the other is the expression [e2] of type [t2]: a
    pointer type when both are pointers or one is a null pointer
    constant (C11 6.5.9p5). *)
Definition comparison_type (t1 : ctype) (e2 : expr) (t2 : ctype) : option ctype :=
  match t1, t2 with
  | Tpointer a, Tpointer b =>
      if bool_decide (a = b) then Some t1
      else if is_null_pointer_constant e2 then Some t1
      else if bool_decide (b = Tvoid) && is_object_type a then Some t2
      else if bool_decide (a = Tvoid) && is_object_type b then Some t1
      else None
  | Tpointer _, _ => if is_null_pointer_constant e2 then Some t1 else None
  | _, _ => None
  end.

(** The idiom: does the expression access a member through a null
    pointer? *)
Fixpoint is_null_address (e : expr) : bool :=
  match e with
  | E_paren e1 => is_null_address e1
  | E_cast (Tpointer _) e1 => is_zero_constant e1 || is_null_address e1
  | _ => false
  end.

Fixpoint uses_null_instance (e : expr) : bool :=
  match e with
  | E_arrow e1 _ => is_null_address e1 || uses_null_instance e1
  | E_paren e1 | E_cast _ e1 | E_addr e1 => uses_null_instance e1
  | E_int _ | E_var _ | E_offsetof _ _ => false
  end.

(** Is the expression a call of the intrinsic (possibly parenthesised)? *)
Fixpoint is_intrinsic_call (e : expr) : bool :=
  match e with
  | E_offsetof _ _ => true
  | E_paren e1 => is_intrinsic_call e1
  | _ => false
  end.

(** ** Use sites: a macro of the header in the text of a program *)

Definition use_fuel : nat := 32.

(** The expression that the tokens [ts] denote where the macros [M] and the
    typedef names [E] are in scope: macro replacement, then parsing. *)
Definition expression_in (M : gmap string macro) (E : gmap string ctype)
    (ts : list token) : option expr :=
  match expand use_fuel M [] ts with
  | Some ts' => parse_full E ts'
  | None => None
  end.

(** The same, right after [#include <stddef.h>]. *)
Definition expression_of (ts : list token) : option expr :=
  expression_in (pp_macros stddef_pp) (typedefs stddef_tu) ts.

Definition use_NULL : list token := [Tk_ident "NULL"].

Definition use_offsetof (tag m : string) : list token :=
  [Tk_ident "offsetof"; Tk_punct LPAREN; Tk_kw KW_struct; Tk_ident tag;
   Tk_punct COMMA; Tk_ident m; Tk_punct RPAREN].

(** The idiom, written out in the text of a program:
    [((size_t)&((struct tag * )0)->m)]. *)
Definition use_idiom (tag m : string) : list token :=
  [Tk_punct LPAREN; Tk_punct LPAREN; Tk_ident "size_t"; Tk_punct RPAREN;
   Tk_punct AMP; Tk_punct LPAREN; Tk_punct LPAREN; Tk_kw KW_struct; Tk_ident tag;
   Tk_punct STAR; Tk_punct RPAREN; Tk_num 0; Tk_punct RPAREN;
   Tk_punct ARROW; Tk_ident m; Tk_punct RPAREN].

(** ** Examples *)

(** The arithmetic and pointer types. *)
Definition is_scalar (t : ctype) : bool :=
  match t with
  | Tchar | Tinteger _ _ | Tfloating _ | Tpointer _ => true
  | Tvoid | Tfunction _ _ | Tstruct _ => false
  end.

(** [struct S { char a; long b; };] and its layout on LP64. *)
Definition probe_members : list (string * ctype) :=
  [("a"%string, Tchar); ("b"%string, Tinteger I_long Signed)].

Definition probe_layout : struct_layout :=
  {| sl_members :=
       [ {| ml_name := "a"; ml_type := Tchar; ml_offset := 0 |};
         {| ml_name := "b"; ml_type := Tinteger I_long Signed; ml_offset := 8 |} ];
     sl_size := 16; sl_align := 8 |}.

(** The header without its guard: the lines between [#ifndef] and
    [#endif]. *)
Definition stddef_unguarded : list pp_line :=
  match stddef_h with
  | _ :: rest => removelast rest
  | [] => []
  end.

(** The part of the preprocessor state that decides which lines are
    processed. *)
Definition pp_frame (st : pp_state) : gmap string macro * list bool :=
  (pp_macros st, pp_conds st).

(** ** An inclusion in its context *)

(** The diagnostics of [#define NULL] and [#define offsetof] where the
    macros [M] are defined already: one for each of the two names that is
    defined in [M] with a different replacement. *)
Definition redefinition_diags (M : gmap string macro) : list diagnostic :=
  match M !! "NULL"%string with
  | Some m => if bool_decide (m = NULL) then [] else [Diag_macro_redefined "NULL"]
  | None => []
  end ++
  match M !! "offsetof"%string with
  | Some m => if bool_decide (m = offsetof) then [] else [Diag_macro_redefined "offsetof"]
  | None => []
  end.

(** None of the four type names of the header is the name of a macro. *)
Definition type_names_free (M : gmap string macro) : Prop :=
  M !! "ptrdiff_t"%string = None /\ M !! "size_t"%string = None /\
  M !! "wchar_t"%string = None /\ M !! "max_align_t"%string = None.

(** The spelling of a keyword: before translation phase 7 a keyword is an
    identifier like any other, and a program may define it as a macro. *)
Definition keyword_name (k : keyword) : string :=
  match k with
  | KW_typedef => "typedef" | KW_void => "void" | KW_char => "char"
  | KW_short => "short" | KW_int => "int" | KW_long => "long"
  | KW_signed => "signed" | KW_unsigned => "unsigned" | KW_float => "float"
  | KW_double => "double" | KW_struct => "struct"
  end.

(** No word of the four typedef lines of the header is the name of a
    macro: neither one of the four type names nor one of the keywords
    [typedef], [long], [unsigned] and [int]. *)
Definition typedef_lines_free (M : gmap string macro) : Prop :=
  type_names_free M /\
  M !! keyword_name KW_typedef = None /\ M !! keyword_name KW_long = None /\
  M !! keyword_name KW_unsigned = None /\ M !! keyword_name KW_int = None.

(** The identifiers among [ts] are not names of macros. *)
Definition macro_free (M : gmap string macro) (ts : list token) : Prop :=
  forall x, In (Tk_ident x) ts -> M !! x = None.

(** Translation of the tokens [ts] after the declarations that gave
    [env]. *)
Definition translate_in (env : tu_env) (ts : list token) : tu_env :=
  fold_left declare (split_declarations [] ts) env.

(** A program that has defined [NULL] as plain [0] before it includes the
    header. *)
Definition after_plain_NULL : pp_state :=
  preprocess pp_init [PP_define "NULL" {| m_params := None; m_body := [Tk_num 0] |}].

(** The largest and the smallest value of an integer type. *)
Definition type_max (tgt : target) (t : ctype) : option Z :=
  match t with
  | Tchar => Some (int_max tgt I_char (if char_signed tgt then Signed else Unsigned))
  | Tinteger r s => Some (int_max tgt r s)
  | _ => None
  end.

Definition type_min (tgt : target) (t : ctype) : option Z :=
  match t with
  | Tchar => Some (int_min tgt I_char (if char_signed tgt then Signed else Unsigned))
  | Tinteger r s => Some (int_min tgt r s)
  | _ => None
  end.

(** The effect of the declaration [typedef t x;] on the environment, as
    [declare] has it: a new name is bound, a name bound to [t] already is
    left alone, a name bound to another type is diagnosed and keeps its
    type. *)
Definition add_typedef (env : tu_env) (x : string) (t : ctype) : tu_env :=
  match typedefs env !! x with
  | None => {| typedefs := <[x := t]> (typedefs env); sema_diags := sema_diags env |}
  | Some t' =>
      if bool_decide (t' = t) then env
      else {| typedefs := typedefs env;
              sema_diags := sema_diags env ++ [Diag_typedef_redefined x] |}
  end.

(** The diagnostic of [typedef t x;] where the typedef names [E] are
    declared already. *)
Definition typedef_conflict (E : gmap string ctype) (x : string) (t : ctype)
    : list diagnostic :=
  match E !! x with
  | Some t' => if bool_decide (t' = t) then [] else [Diag_typedef_redefined x]
  | None => []
  end.

(** The diagnostics of the four declarations of the header, in their
    order, where the typedef names [E] are declared already. *)
Definition typedef_conflicts (E : gmap string ctype) : list diagnostic :=
  typedef_conflict E "ptrdiff_t" (Tinteger I_long Signed) ++
  typedef_conflict E "size_t" (Tinteger I_long Unsigned) ++
  typedef_conflict E "wchar_t" (Tinteger I_int Signed) ++
  typedef_conflict E "max_align_t" (Tinteger I_long Signed).

(** A unit that has declared [size_t] as [unsigned int] before it includes
    the header. *)
Definition after_narrow_size_t : tu_env :=
  translate [Tk_kw KW_typedef; Tk_kw KW_unsigned; Tk_kw KW_int; Tk_ident "size_t";
             Tk_punct SEMI].

(** A unit in which another header has declared [size_t], with the same
    type, before this one is included. *)
Definition after_same_size_t : tu_env :=
  translate [Tk_kw KW_typedef; Tk_kw KW_unsigned; Tk_kw KW_long; Tk_ident "size_t";
             Tk_punct SEMI].

(** * Properties *)

(** ** What the header declares *)

Lemma typedefs_resolve :
  resolve "ptrdiff_t" = Some (Tinteger I_long Signed) /\
  resolve "size_t" = Some (Tinteger I_long Unsigned) /\
  resolve "wchar_t" = Some (Tinteger I_int Signed) /\
  resolve "max_align_t" = Some (Tinteger I_long Signed).
Proof. repeat split; vm_compute; reflexivity. Qed.

Lemma ptrdiff_t_is_long : ptrdiff_t = Tinteger I_long Signed.
Proof. vm_compute; reflexivity. Qed.

Lemma size_t_is_unsigned_long : size_t = Tinteger I_long Unsigned.
Proof. vm_compute; reflexivity. Qed.

Lemma wchar_t_is_int : wchar_t = Tinteger I_int Signed.
Proof. vm_compute; reflexivity. Qed.

Lemma max_align_t_is_long : max_align_t = Tinteger I_long Signed.
Proof. vm_compute; reflexivity. Qed.

Lemma stddef_no_diagnostics : pp_diags stddef_pp = [] /\ sema_diags stddef_tu = [].
Proof. split; vm_compute; reflexivity. Qed.

Lemma wf_lp64 : wf_target lp64.
Proof. constructor; cbn; lia. Qed.

Lemma wf_lp64_sysv : wf_target lp64_sysv.
Proof. constructor; cbn; lia. Qed.

Lemma wf_llp64 : wf_target llp64.
Proof. constructor; cbn; lia. Qed.

(** ** Arithmetic of the integer types *)

Section Ranges.
Variable tgt : target.
Hypothesis WF : wf_target tgt.

Lemma sizeof_rank_pos r : 0 < sizeof_rank tgt r.
Proof. destruct WF as [? ? [? ?] [? ?] _ _ _]. destruct r; cbn; lia. Qed.

Lemma int_bits_pos r : 8 <= int_bits tgt r.
Proof. unfold int_bits. pose proof (sizeof_rank_pos r). lia. Qed.

Lemma pow_bits_split r : 2 ^ int_bits tgt r = 2 * 2 ^ (int_bits tgt r - 1).
Proof.
  pose proof (int_bits_pos r).
  rewrite <- Z.pow_succ_r by lia. f_equal. lia.
Qed.

Lemma half_range_pos r : 0 < 2 ^ (int_bits tgt r - 1).
Proof. pose proof (int_bits_pos r). apply Z.pow_pos_nonneg; lia. Qed.

Lemma convert_int_id r s v :
  int_min tgt r s <= v <= int_max tgt r s -> convert_int tgt r s v = v.
Proof.
  pose proof (pow_bits_split r). pose proof (half_range_pos r).
  destruct s; unfold int_min, int_max, convert_int; intros Hv.
  - rewrite Z.mod_small by lia. lia.
  - apply Z.mod_small. lia.
Qed.

Lemma convert_unsigned_minus_one r :
  convert_int tgt r Unsigned (-1) = int_max tgt r Unsigned.
Proof.
  pose proof (pow_bits_split r). pose proof (half_range_pos r).
  unfold convert_int, int_max.
  replace (-1) with (2 ^ int_bits tgt r - 1 + (-1) * 2 ^ int_bits tgt r) by lia.
  rewrite Z.mod_add by lia. apply Z.mod_small. lia.
Qed.

Lemma signed_max_below_unsigned_max r :
  int_max tgt r Signed < int_max tgt r Unsigned.
Proof.
  pose proof (pow_bits_split r). pose proof (half_range_pos r).
  unfold int_max. lia.
Qed.
End Ranges.

(** ** [size_t], [ptrdiff_t] and the pointer width *)

Lemma size_t_ptrdiff_t_same_size tgt L :
  sizeof tgt L size_t = sizeof tgt L ptrdiff_t.
Proof. rewrite size_t_is_unsigned_long, ptrdiff_t_is_long. reflexivity. Qed.

Lemma pointer_width_needs_long_is_word tgt L :
  sizeof tgt L ptrdiff_t = sizeof tgt L (Tpointer Tvoid) -> long_is_word tgt.
Proof. rewrite ptrdiff_t_is_long. cbn. unfold long_is_word. congruence. Qed.

Example llp64_long_is_not_word :
  sizeof llp64 ∅ size_t = Some 4 /\ sizeof llp64 ∅ (Tpointer Tvoid) = Some 8.
Proof. rewrite size_t_is_unsigned_long. split; reflexivity. Qed.

(** C1.  On every target where [long] is the pointer-wide word type, the
    sizes of [size_t], of [ptrdiff_t] and of [void *] are equal: both
    aliases are [long] types, [unsigned long] has the size of [long], and
    that size is the pointer size. *)
Theorem size_t_ptrdiff_t_pointer_width tgt L :
  long_is_word tgt ->
  sizeof tgt L size_t = sizeof tgt L ptrdiff_t /\
  sizeof tgt L ptrdiff_t = sizeof tgt L (Tpointer Tvoid) /\
  sizeof tgt L (Tpointer Tvoid) = Some (sz_ptr tgt).
Proof.
  intros Hw. rewrite size_t_is_unsigned_long, ptrdiff_t_is_long. cbn.
  unfold long_is_word in Hw. rewrite Hw. auto.
Qed.

Lemma lp64_word_types_agree :
  long_is_word lp64 /\
  sizeof lp64 ∅ size_t = sizeof lp64 ∅ ptrdiff_t /\
  sizeof lp64 ∅ ptrdiff_t = sizeof lp64 ∅ (Tpointer Tvoid) /\
  sizeof lp64 ∅ (Tpointer Tvoid) = Some (sz_ptr lp64).
Proof.
  split; [reflexivity | apply (size_t_ptrdiff_t_pointer_width lp64 ∅); reflexivity].
Defined.

(** ** [size_t] is unsigned *)

Lemma minus_one_as_size_t tgt :
  wf_target tgt -> cast_int tgt size_t (-1) = Some (int_max tgt I_long Unsigned).
Proof.
  intros WF. rewrite size_t_is_unsigned_long. cbn [cast_int].
  f_equal. apply convert_unsigned_minus_one, WF.
Qed.

(** C3, as stated, fails at the largest size: on LP64, [n = 2^64 - 1] is a
    positive value of [size_t], [(size_t)-1] is that same value, and so
    does not compare greater than [n]. *)
Lemma SIZE_MAX_is_not_below_minus_one :
  in_range lp64 size_t (2 ^ 64 - 1) /\
  0 < 2 ^ 64 - 1 /\
  cast_int lp64 size_t (-1) = Some (2 ^ 64 - 1) /\
  ~ (2 ^ 64 - 1 < 2 ^ 64 - 1).
Proof.
  rewrite size_t_is_unsigned_long.
  repeat split; solve [vm_compute; congruence | lia].
Qed.

(** C3, amended.  [size_t] is an unsigned integer type and not a signed
    one; [(size_t)-1] is the largest value of [size_t], so it is greater
    than or equal to every value [n] of [size_t], and greater than every
    [n] other than that largest value. *)
Theorem size_t_minus_one_is_maximum tgt n :
  wf_target tgt ->
  in_range tgt size_t n ->
  is_unsigned_integer size_t = true /\
  is_signed_integer size_t = false /\
  exists m, cast_int tgt size_t (-1) = Some m /\
            in_range tgt size_t m /\
            n <= m /\ (n <> m -> n < m).
Proof.
  intros WF Hn. rewrite (minus_one_as_size_t tgt WF).
  rewrite size_t_is_unsigned_long in *. cbn in Hn.
  repeat split; try reflexivity.
  exists (int_max tgt I_long Unsigned). cbn. repeat split; try lia.
Qed.

Lemma lp64_page_size_below_minus_one :
  wf_target lp64 /\ in_range lp64 size_t 4096 /\
  is_unsigned_integer size_t = true /\
  is_signed_integer size_t = false /\
  exists m, cast_int lp64 size_t (-1) = Some m /\
            in_range lp64 size_t m /\
            4096 <= m /\ (4096 <> m -> 4096 < m).
Proof.
  assert (H : in_range lp64 size_t 4096).
  { rewrite size_t_is_unsigned_long. vm_compute. split; congruence. }
  split; [exact wf_lp64 | split; [exact H |]].
  exact (size_t_minus_one_is_maximum lp64 4096 wf_lp64 H).
Defined.

(** ** [ptrdiff_t] is signed *)

(** C4.  [ptrdiff_t] is a signed integer type, and for two addresses
    [p < q] of one allocation the difference [p - q], held in [ptrdiff_t],
    is the negative number [p - q]. *)
Theorem ptrdiff_t_difference_negative tgt a p q :
  wf_target tgt ->
  valid_allocation tgt a ->
  in_allocation a p -> in_allocation a q ->
  p < q ->
  is_signed_integer ptrdiff_t = true /\
  ptr_sub tgt p q = Some (p - q) /\
  p - q < 0.
Proof.
  intros WF (Hb & Hs & _ & Hr) Hp Hq Hlt. unfold ptr_sub.
  rewrite ptrdiff_t_is_long in *. cbn in Hr. unfold in_allocation in *.
  repeat split; [| lia]. cbn [cast_int].
  rewrite convert_int_id; [| exact WF | unfold int_min, int_max in *; lia].
  rewrite Z.eqb_refl. reflexivity.
Qed.

Lemma lp64_backward_difference :
  wf_target lp64 /\
  valid_allocation lp64 {| a_base := 4096; a_size := 64 |} /\
  in_allocation {| a_base := 4096; a_size := 64 |} 4100 /\
  in_allocation {| a_base := 4096; a_size := 64 |} 4160 /\
  4100 < 4160 /\
  is_signed_integer ptrdiff_t = true /\
  ptr_sub lp64 4100 4160 = Some (4100 - 4160) /\
  4100 - 4160 < 0.
Proof.
  assert (Ha : valid_allocation lp64 {| a_base := 4096; a_size := 64 |}).
  { unfold valid_allocation. rewrite ptrdiff_t_is_long.
    vm_compute. repeat split; congruence. }
  assert (Hp : in_allocation {| a_base := 4096; a_size := 64 |} 4100).
  { unfold in_allocation; cbn; lia. }
  assert (Hq : in_allocation {| a_base := 4096; a_size := 64 |} 4160).
  { unfold in_allocation; cbn; lia. }
  assert (Hlt : 4100 < 4160) by lia.
  repeat (split; [assumption || exact wf_lp64 |]).
  exact (ptrdiff_t_difference_negative lp64 _ 4100 4160 wf_lp64 Ha Hp Hq Hlt).
Defined.

(** ** [wchar_t] *)

(** C5.  On every target with a 4-byte [int], [wchar_t] is a signed
    integer type of size 4; its values are those of a 32-bit two's
    complement integer, among them the negative ones. *)
Theorem wchar_t_four_byte_signed tgt L :
  sz_int tgt = 4 ->
  is_signed_integer wchar_t = true /\
  sizeof tgt L wchar_t = Some 4 /\
  (forall v, in_range tgt wchar_t v <-> - 2 ^ 31 <= v <= 2 ^ 31 - 1) /\
  in_range tgt wchar_t (-1) /\
  cast_int tgt wchar_t (-1) = Some (-1).
Proof.
  intros H4. rewrite wchar_t_is_int. cbn.
  unfold int_min, int_max, convert_int, int_bits. cbn. rewrite H4.
  change (8 * 4 - 1) with 31. change (8 * 4) with 32.
  repeat split; try lia; try reflexivity.
Qed.

Lemma lp64_wide_character :
  sz_int lp64 = 4 /\
  is_signed_integer wchar_t = true /\
  sizeof lp64 ∅ wchar_t = Some 4 /\
  (forall v, in_range lp64 wchar_t v <-> - 2 ^ 31 <= v <= 2 ^ 31 - 1) /\
  in_range lp64 wchar_t (-1) /\
  cast_int lp64 wchar_t (-1) = Some (-1).
Proof.
  split; [reflexivity | apply (wchar_t_four_byte_signed lp64 ∅); reflexivity].
Defined.

(** ** [ptrdiff_t] and [size_t] together *)

(** C9.  [ptrdiff_t] and [size_t] are the signed and the unsigned type of
    one rank, and every nonnegative value [d] of [ptrdiff_t] converts to
    [size_t] unchanged and from there back to [ptrdiff_t] unchanged. *)
Theorem ptrdiff_t_size_t_round_trip tgt d :
  wf_target tgt ->
  in_range tgt ptrdiff_t d ->
  0 <= d ->
  (exists r, ptrdiff_t = Tinteger r Signed /\ size_t = Tinteger r Unsigned) /\
  cast_int tgt size_t d = Some d /\
  (forall u, cast_int tgt size_t d = Some u -> cast_int tgt ptrdiff_t u = Some d).
Proof.
  intros WF Hd H0.
  rewrite ptrdiff_t_is_long, size_t_is_unsigned_long in *. cbn in Hd.
  pose proof (signed_max_below_unsigned_max tgt WF I_long) as Hmax.
  assert (Hu : convert_int tgt I_long Unsigned d = d).
  { apply convert_int_id; [exact WF |]. unfold int_min, int_max in *. lia. }
  split; [exists I_long; auto |]. cbn [cast_int]. rewrite Hu.
  split; [reflexivity |]. intros u [= <-]. f_equal.
  apply convert_int_id; [exact WF | exact Hd].
Qed.

Lemma lp64_round_trip_1000 :
  wf_target lp64 /\ in_range lp64 ptrdiff_t 1000 /\ 0 <= 1000 /\
  (exists r, ptrdiff_t = Tinteger r Signed /\ size_t = Tinteger r Unsigned) /\
  cast_int lp64 size_t 1000 = Some 1000 /\
  (forall u, cast_int lp64 size_t 1000 = Some u -> cast_int lp64 ptrdiff_t u = Some 1000).
Proof.
  assert (H : in_range lp64 ptrdiff_t 1000).
  { rewrite ptrdiff_t_is_long. vm_compute. split; congruence. }
  assert (H0 : 0 <= 1000) by lia.
  repeat (split; [assumption || exact wf_lp64 |]).
  exact (ptrdiff_t_size_t_round_trip lp64 1000 wf_lp64 H H0).
Defined.

(** ** Macro replacement, step by step *)

Lemma expand_nil f M hide : expand (S f) M hide [] = Some [].
Proof. reflexivity. Qed.

Lemma expand_kw f M hide k rest :
  expand (S f) M hide (Tk_kw k :: rest) = cons (Tk_kw k) <$> expand f M hide rest.
Proof. reflexivity. Qed.

Lemma expand_num f M hide n rest :
  expand (S f) M hide (Tk_num n :: rest) = cons (Tk_num n) <$> expand f M hide rest.
Proof. reflexivity. Qed.

Lemma expand_punct f M hide p rest :
  expand (S f) M hide (Tk_punct p :: rest) = cons (Tk_punct p) <$> expand f M hide rest.
Proof. reflexivity. Qed.

Lemma expand_not_macro f M hide x rest :
  M !! x = None ->
  expand (S f) M hide (Tk_ident x :: rest) = cons (Tk_ident x) <$> expand f M hide rest.
Proof. intros H. cbn [expand]. rewrite H. reflexivity. Qed.

Lemma expand_object_macro f M hide x body rest :
  M !! x = Some {| m_params := None; m_body := body |} ->
  x ∉ hide ->
  expand (S f) M hide (Tk_ident x :: rest) =
    match expand f M (x :: hide) body, expand f M hide rest with
    | Some r1, Some r2 => Some (r1 ++ r2)
    | _, _ => None
    end.
Proof.
  intros H Hh. cbn [expand]. rewrite H.
  rewrite bool_decide_eq_false_2 by exact Hh. reflexivity.
Qed.

Lemma expand_function_macro f M hide x ps body rest args rest' :
  M !! x = Some {| m_params := Some ps; m_body := body |} ->
  x ∉ hide ->
  collect_args O [] [] rest = Some (args, rest') ->
  invocation_args ps args = args ->
  length args = length ps ->
  expand (S f) M hide (Tk_ident x :: Tk_punct LPAREN :: rest) =
    match expand_all (expand f M hide) args with
    | Some args' =>
        match expand f M (x :: hide) (subst_params ps args' body),
              expand f M hide rest' with
        | Some r1, Some r2 => Some (r1 ++ r2)
        | _, _ => None
        end
    | None => None
    end.
Proof.
  intros H Hh Hc Hi Hl. cbn [expand]. rewrite H.
  rewrite bool_decide_eq_false_2 by exact Hh. rewrite Hc. cbv zeta. rewrite Hi.
  rewrite bool_decide_eq_true_2 by exact Hl. reflexivity.
Qed.

Ltac expand_tokens :=
  repeat first
    [ rewrite expand_nil
    | rewrite expand_kw
    | rewrite expand_num
    | rewrite expand_punct
    | rewrite expand_not_macro by assumption ];
  cbn [fmap option_fmap option_map].

(** ** The macros of the header *)

Lemma stddef_macros :
  pp_macros stddef_pp !! "NULL"%string = Some NULL /\
  pp_macros stddef_pp !! "offsetof"%string = Some offsetof /\
  pp_macros stddef_pp !! "__builtin_offsetof"%string = None.
Proof. repeat split; vm_compute; reflexivity. Qed.

(** Wherever [NULL] is replaced, whatever other macros are defined, its
    replacement is the seven tokens of the header. *)
Lemma expand_NULL f M hide rest :
  M !! "NULL"%string = Some NULL ->
  "NULL"%string ∉ hide ->
  expand (S (8 + f)) M hide (Tk_ident "NULL" :: rest) =
    app (m_body NULL) <$> expand (8 + f) M hide rest.
Proof.
  intros H Hh. rewrite (expand_object_macro _ _ _ _ (m_body NULL) _ H Hh).
  cbn [NULL m_body Nat.add]. expand_tokens.
  destruct (expand _ M hide rest); reflexivity.
Qed.

Lemma parse_NULL_body E :
  parse_full E (m_body NULL) = Some (E_paren (E_cast (Tpointer Tvoid) (E_int 0))).
Proof. reflexivity. Qed.

Lemma expression_in_NULL M E :
  M !! "NULL"%string = pp_macros stddef_pp !! "NULL"%string ->
  expression_in M E use_NULL = Some (E_paren (E_cast (Tpointer Tvoid) (E_int 0))).
Proof.
  intros H. rewrite (proj1 stddef_macros) in H.
  unfold expression_in, use_NULL, use_fuel.
  change 32%nat with (S (8 + 23)).
  rewrite (expand_NULL 23 M [] [] H) by (intros Hin; inversion Hin).
  cbn [Nat.add]. expand_tokens. rewrite app_nil_r. apply parse_NULL_body.
Qed.

Lemma expression_of_offsetof tag m :
  pp_macros stddef_pp !! tag = None ->
  pp_macros stddef_pp !! m = None ->
  expression_of (use_offsetof tag m) = Some (E_offsetof (Tstruct tag) m).
Proof.
  intros Ht Hm. destruct stddef_macros as (_ & Ho & Hb).
  unfold expression_of, expression_in, use_offsetof, use_fuel.
  rewrite (expand_function_macro 31 _ [] _ ["type"; "member"]%string (m_body offsetof) _
             [[Tk_kw KW_struct; Tk_ident tag]; [Tk_ident m]] [] Ho);
    [ | intros Hin; inversion Hin | reflexivity | reflexivity | reflexivity ].
  cbn [expand_all]. expand_tokens.
  cbn [offsetof m_body subst_params param_arg String.eqb Ascii.eqb Bool.eqb app].
  expand_tokens.
  generalize (typedefs stddef_tu) as E. intros E. reflexivity.
Qed.

(** ** [NULL] *)

Lemma valid_pointer_not_null tgt v :
  valid_pointer tgt v -> ptr_eq null_pointer v = Some false.
Proof.
  intros (a & p & -> & (Hb & _) & Hp). unfold in_allocation in Hp.
  unfold null_pointer, ptr_eq. f_equal. apply Z.eqb_neq. lia.
Qed.

Example void_pointer_variable_to_function_pointer :
  assignable (Tpointer (Tfunction Tvoid Tnil)) (E_var "p") (Tpointer Tvoid) = false.
Proof. reflexivity. Qed.

(** C6.  After the inclusion, [NULL] denotes the expression [((void * )0)]:
    it is a null pointer constant of type [void *], not the integer
    constant [0]; it may be assigned to a pointer to any type [t], object
    or function, without a diagnostic; every pointer assigned from it holds
    the null pointer, so two such pointers compare equal, and any of them
    compares unequal to every valid pointer [v]. *)
Theorem NULL_is_null_pointer_constant tgt L size_ty t v :
  valid_pointer tgt v ->
  exists e n,
    expression_of use_NULL = Some e /\
    e <> E_int 0 /\
    type_of tgt L size_ty e = Some (Tpointer Tvoid) /\
    is_null_pointer_constant e = true /\
    assignable (Tpointer t) e (Tpointer Tvoid) = true /\
    eval tgt L size_ty e = Some n /\
    to_pointer tgt n = null_pointer /\
    ptr_eq (to_pointer tgt n) (to_pointer tgt n) = Some true /\
    ptr_eq (to_pointer tgt n) v = Some false.
Proof.
  intros Hv.
  exists (E_paren (E_cast (Tpointer Tvoid) (E_int 0))), (V_ptr 0).
  split; [apply expression_in_NULL; reflexivity |].
  split; [discriminate |].
  repeat split; try reflexivity.
  exact (valid_pointer_not_null tgt v Hv).
Qed.

Lemma lp64_NULL_against_object :
  valid_pointer lp64 (V_ptr 4100) /\
  exists e n,
    expression_of use_NULL = Some e /\
    e <> E_int 0 /\
    type_of lp64 ∅ size_t e = Some (Tpointer Tvoid) /\
    is_null_pointer_constant e = true /\
    assignable (Tpointer (Tfunction Tvoid Tnil)) e (Tpointer Tvoid) = true /\
    eval lp64 ∅ size_t e = Some n /\
    to_pointer lp64 n = null_pointer /\
    ptr_eq (to_pointer lp64 n) (to_pointer lp64 n) = Some true /\
    ptr_eq (to_pointer lp64 n) (V_ptr 4100) = Some false.
Proof.
  assert (Hv : valid_pointer lp64 (V_ptr 4100)).
  { exists {| a_base := 4096; a_size := 64 |}, 4100.
    unfold valid_allocation, in_allocation. rewrite ptrdiff_t_is_long.
    vm_compute. repeat split; congruence. }
  split; [exact Hv |].
  exact (NULL_is_null_pointer_constant lp64 ∅ size_t (Tfunction Tvoid Tnil) (V_ptr 4100) Hv).
Defined.

Example plain_zero_has_int_width :
  sizeof_expr lp64 ∅ size_t (E_int 0) = Some 4 /\
  sizeof lp64 ∅ (Tpointer Tvoid) = Some 8.
Proof. split; reflexivity. Qed.

(** C10.  Wherever [NULL] is the macro of the header and [void], the one
    word of its replacement, is not itself defined as a macro, whatever
    other macros [M] and typedef names [E] are in scope and whatever the
    target, [NULL] denotes an expression of type [void *]: [sizeof(NULL)]
    is the size of [void *], the pointer size; the default argument
    promotions leave its type alone, so as a variadic argument it has the
    pointer size; and compared with a pointer of any type it is compared
    in a pointer type, of the pointer size. *)
Theorem NULL_has_pointer_width tgt L size_ty M E t :
  M !! "NULL"%string = pp_macros stddef_pp !! "NULL"%string ->
  M !! keyword_name KW_void = None ->
  exists e ty,
    expression_in M E use_NULL = Some e /\
    type_of tgt L size_ty e = Some ty /\
    ty = Tpointer Tvoid /\
    sizeof_expr tgt L size_ty e = sizeof tgt L (Tpointer Tvoid) /\
    sizeof_expr tgt L size_ty e = Some (sz_ptr tgt) /\
    sizeof tgt L (default_argument_promotion tgt ty) = Some (sz_ptr tgt) /\
    exists ct, comparison_type (Tpointer t) e ty = Some ct /\
               sizeof tgt L ct = Some (sz_ptr tgt).
Proof.
  intros H _. exists (E_paren (E_cast (Tpointer Tvoid) (E_int 0))), (Tpointer Tvoid).
  split; [exact (expression_in_NULL M E H) |].
  repeat split. exists (Tpointer t). split; [| reflexivity].
  unfold comparison_type. case_bool_decide; reflexivity.
Qed.

Lemma lp64_NULL_width_among_user_macros :
  let M := <["BUFSIZE"%string := {| m_params := None; m_body := [Tk_num 512] |}]>
             (pp_macros stddef_pp) in
  M !! "NULL"%string = pp_macros stddef_pp !! "NULL"%string /\
  M !! keyword_name KW_void = None /\
  exists e ty,
    expression_in M ∅ use_NULL = Some e /\
    type_of lp64 ∅ size_t e = Some ty /\
    ty = Tpointer Tvoid /\
    sizeof_expr lp64 ∅ size_t e = sizeof lp64 ∅ (Tpointer Tvoid) /\
    sizeof_expr lp64 ∅ size_t e = Some (sz_ptr lp64) /\
    sizeof lp64 ∅ (default_argument_promotion lp64 ty) = Some (sz_ptr lp64) /\
    exists ct, comparison_type (Tpointer (Tinteger I_int Signed)) e ty = Some ct /\
               sizeof lp64 ∅ ct = Some (sz_ptr lp64).
Proof.
  intros M.
  assert (H : M !! "NULL"%string = pp_macros stddef_pp !! "NULL"%string).
  { vm_compute. reflexivity. }
  assert (Hv : M !! keyword_name KW_void = None).
  { vm_compute. reflexivity. }
  split; [exact H | split; [exact Hv |]].
  exact (NULL_has_pointer_width lp64 ∅ size_t M ∅ (Tinteger I_int Signed) H Hv).
Defined.

(** ** [offsetof] *)

Lemma align_up_multiple n a : align_up n a mod a = 0.
Proof. unfold align_up. apply Z_mod_mult. Qed.

Lemma align_up_ge n a : 0 < a -> n <= align_up n a.
Proof.
  intros Ha. unfold align_up.
  pose proof (Z.mul_div_le (n + a - 1) a Ha).
  pose proof (Z.mod_pos_bound (n + a - 1) a Ha).
  pose proof (Z.div_mod (n + a - 1) a). lia.
Qed.

(** Every member is placed at a multiple of the alignment of its type. *)
Lemma layout_members_aligned tgt L ms : forall off al ls e al',
  layout_members tgt L off al ms = Some (ls, e, al') ->
  Forall (fun ml => exists a, alignof tgt L (ml_type ml) = Some a /\ ml_offset ml mod a = 0) ls.
Proof.
  induction ms as [| [x t] ms IH]; intros off al ls e al' H; cbn in H.
  - injection H as <- _ _. constructor.
  - destruct (sizeof tgt L t) as [sz |] eqn:Hsz; [| discriminate].
    destruct (alignof tgt L t) as [a |] eqn:Hal; [| discriminate].
    destruct (layout_members tgt L (align_up off a + sz) (Z.max al a) ms)
      as [[[ls' e'] al''] |] eqn:Hrest; [| discriminate].
    injection H as <- _ _. constructor.
    + exists a. cbn. split; [exact Hal | apply align_up_multiple].
    + exact (IH _ _ _ _ _ Hrest).
Qed.

Lemma find_member_In m ls ml : find_member m ls = Some ml -> In ml ls.
Proof.
  induction ls as [| l ls IH]; cbn; [discriminate |].
  destruct (String.eqb (ml_name l) m); [intros [= ->]; auto | auto].
Qed.

(** The address of a member, as the code generator computes it: the
    address of the struct plus the offset of the member. *)
Lemma member_address tgt L size_ty base tag m a o :
  type_of tgt L size_ty base = Some (Tpointer (Tstruct tag)) ->
  eval tgt L size_ty base = Some (V_ptr a) ->
  member_offset L tag m = Some o ->
  eval tgt L size_ty (E_addr (E_arrow base m)) = Some (V_ptr ((a + o) mod 2 ^ ptr_bits tgt)).
Proof. intros Ht He Ho. cbn [eval]. rewrite Ht, He, Ho. reflexivity. Qed.

Lemma align_up_lt n a : 0 < a -> align_up n a < n + a.
Proof.
  intros Ha. unfold align_up.
  pose proof (Z.mul_div_le (n + a - 1) a Ha). lia.
Qed.

(** Where the layout algorithm puts a member [m] that follows the members
    [pre]: at the end of [pre], rounded up to the alignment of its type.
    That is the member [find_member] finds under the name [m]. *)
Lemma layout_members_locate tgt L m t post pre : forall off al ls e al',
  ~ In m (map fst pre) ->
  layout_members tgt L off al (pre ++ (m, t) :: post) = Some (ls, e, al') ->
  exists ls_pre end_pre al_pre a,
    layout_members tgt L off al pre = Some (ls_pre, end_pre, al_pre) /\
    alignof tgt L t = Some a /\
    find_member m ls =
      Some {| ml_name := m; ml_type := t; ml_offset := align_up end_pre a |}.
Proof.
  induction pre as [| [x tx] pre IH]; intros off al ls e al' Hnin H.
  - cbn [app layout_members] in H.
    destruct (sizeof tgt L t) as [sz |]; [| discriminate].
    destruct (alignof tgt L t) as [a |]; [| discriminate].
    destruct (layout_members tgt L (align_up off a + sz) (Z.max al a) post)
      as [[[ls' e'] al''] |]; [| discriminate].
    injection H as <- _ _. exists [], off, al, a.
    repeat split. cbn [find_member ml_name]. rewrite String.eqb_refl. reflexivity.
  - cbn [app layout_members] in H. cbn [layout_members].
    destruct (sizeof tgt L tx) as [szx |]; [| discriminate].
    destruct (alignof tgt L tx) as [ax |]; [| discriminate].
    destruct (layout_members tgt L (align_up off ax + szx) (Z.max al ax)
                (pre ++ (m, t) :: post)) as [[[ls' e'] al''] |] eqn:Hrest; [| discriminate].
    injection H as <- _ _.
    assert (Hnin' : ~ In m (map fst pre)) by (intros Hin; apply Hnin; right; exact Hin).
    destruct (IH _ _ _ _ _ Hnin' Hrest) as (ls_pre & end_pre & al_pre & a & Hpre & Ha & Hf).
    rewrite Hpre. exists ({| ml_name := x; ml_type := tx; ml_offset := align_up off ax |} :: ls_pre),
      end_pre, al_pre, a.
    repeat split; [exact Ha |]. cbn [find_member ml_name].
    assert (Hx : String.eqb x m = false).
    { apply String.eqb_neq. intros ->. apply Hnin. left. reflexivity. }
    rewrite Hx. exact Hf.
Qed.

(** C7.  For a struct [tag] that has a member [m] of type [t] after the
    members [pre] (the name [m] is not among them; neither [tag] nor [m]
    is a macro), [offsetof(struct tag, m)] expands to the intrinsic
    [__builtin_offsetof(struct tag, m)], an expression that accesses no
    member through a null pointer.  It has a value [o], and [o] is the
    offset the layout algorithm assigns to [m]: the end of the members
    before [m], padded up to the next multiple of the alignment of [t].
    It is the offset recorded for [m] in the layout of the struct, and the
    displacement used to address the member of any struct object. *)
Theorem offsetof_is_layout_offset tgt L0 size_ty tag pre m t post L :
  pp_macros stddef_pp !! tag = None ->
  pp_macros stddef_pp !! m = None ->
  ~ In m (map fst pre) ->
  define_struct tgt L0 tag (pre ++ (m, t) :: post) = Some L ->
  exists e ls_pre end_pre al_pre a o,
    expression_of (use_offsetof tag m) = Some e /\
    e = E_offsetof (Tstruct tag) m /\
    is_intrinsic_call e = true /\
    uses_null_instance e = false /\
    layout_members tgt L0 0 1 pre = Some (ls_pre, end_pre, al_pre) /\
    alignof tgt L0 t = Some a /\
    o = align_up end_pre a /\
    o mod a = 0 /\
    (0 < a -> end_pre <= o < end_pre + a) /\
    eval tgt L size_ty e = Some (V_int o) /\
    member_offset L tag m = Some o /\
    (forall base addr,
       type_of tgt L size_ty base = Some (Tpointer (Tstruct tag)) ->
       eval tgt L size_ty base = Some (V_ptr addr) ->
       eval tgt L size_ty (E_addr (E_arrow base m)) =
         Some (V_ptr ((addr + o) mod 2 ^ ptr_bits tgt))).
Proof.
  intros Ht Hm Hnin Hdef. unfold define_struct, layout_struct in Hdef.
  destruct (layout_members tgt L0 0 1 (pre ++ (m, t) :: post))
    as [[[ls e] al] |] eqn:Hls; [| discriminate].
  injection Hdef as <-.
  destruct (layout_members_locate tgt L0 m t post pre _ _ _ _ _ Hnin Hls)
    as (ls_pre & end_pre & al_pre & a & Hpre & Ha & Hf).
  assert (Hoff : member_offset
                   (<[tag := {| sl_members := ls; sl_size := align_up e al; sl_align := al |}]> L0)
                   tag m = Some (align_up end_pre a)).
  { unfold member_offset. rewrite lookup_insert_eq. cbn [sl_members]. rewrite Hf. reflexivity. }
  exists (E_offsetof (Tstruct tag) m), ls_pre, end_pre, al_pre, a, (align_up end_pre a).
  split; [exact (expression_of_offsetof tag m Ht Hm) |].
  do 3 (split; [reflexivity |]).
  split; [exact Hpre |]. split; [exact Ha |]. split; [reflexivity |].
  split; [apply align_up_multiple |].
  split; [intros Hpos; split; [apply align_up_ge | apply align_up_lt]; exact Hpos |].
  split; [cbn [eval builtin_offsetof]; rewrite Hoff; reflexivity |].
  split; [exact Hoff |].
  intros base addr Hty Hbase.
  exact (member_address tgt _ size_ty base tag m addr _ Hty Hbase Hoff).
Qed.

Lemma lp64_offsetof_probe_member :
  let L := <["S"%string := probe_layout]> (∅ : gmap string struct_layout) in
  pp_macros stddef_pp !! "S"%string = None /\
  pp_macros stddef_pp !! "b"%string = None /\
  ~ In "b"%string (map fst [("a"%string, Tchar)]) /\
  define_struct lp64 ∅ "S" ([("a"%string, Tchar)] ++ ("b"%string, Tinteger I_long Signed) :: [])
    = Some L /\
  expression_of (use_offsetof "S" "b") = Some (E_offsetof (Tstruct "S") "b") /\
  eval lp64 L size_t (E_offsetof (Tstruct "S") "b") = Some (V_int 8) /\
  member_offset L "S" "b" = Some 8 /\
  8 = align_up 1 8 /\
  (forall base addr,
     type_of lp64 L size_t base = Some (Tpointer (Tstruct "S")) ->
     eval lp64 L size_t base = Some (V_ptr addr) ->
     eval lp64 L size_t (E_addr (E_arrow base "b")) =
       Some (V_ptr ((addr + 8) mod 2 ^ ptr_bits lp64))).
Proof.
  intros L.
  assert (Ht : pp_macros stddef_pp !! "S"%string = None) by (vm_compute; reflexivity).
  assert (Hm : pp_macros stddef_pp !! "b"%string = None) by (vm_compute; reflexivity).
  assert (Hn : ~ In "b"%string (map fst [("a"%string, Tchar)])).
  { cbn. intros [H | []]. discriminate. }
  assert (Hd : define_struct lp64 ∅ "S"
                 ([("a"%string, Tchar)] ++ ("b"%string, Tinteger I_long Signed) :: [])
               = Some L) by reflexivity.
  repeat (split; [assumption |]).
  destruct (offsetof_is_layout_offset lp64 ∅ size_t "S" [("a"%string, Tchar)] "b"
              (Tinteger I_long Signed) [] L Ht Hm Hn Hd)
    as (e & ls_pre & end_pre & al_pre & a & o & He & -> & _ & _ & Hpre & Ha & Ho & _ & _
        & Hev & Hoff & Haddr).
  cbn in Hpre. injection Hpre as _ <- _. cbn in Ha. injection Ha as <-.
  change (align_up 1 8) with 8 in Ho. subst o.
  repeat split; assumption || reflexivity.
Defined.

(** The probe of the spec: a [char] followed by a [long], on LP64.  The
    first member is at offset 0, the second after seven bytes of padding;
    the macro and the idiom give the same number, but only the idiom goes
    through a null pointer. *)
Example offsetof_probe :
  let L := <["S"%string := probe_layout]> (∅ : gmap string struct_layout) in
  define_struct lp64 ∅ "S" probe_members = Some L /\
  (eval lp64 L size_t <$> expression_of (use_offsetof "S" "a")) = Some (Some (V_int 0)) /\
  (eval lp64 L size_t <$> expression_of (use_offsetof "S" "b")) = Some (Some (V_int 8)) /\
  (eval lp64 L size_t <$> expression_of (use_idiom "S" "b")) = Some (Some (V_int 8)) /\
  (uses_null_instance <$> expression_of (use_offsetof "S" "b")) = Some false /\
  (uses_null_instance <$> expression_of (use_idiom "S" "b")) = Some true.
Proof. repeat split; vm_compute; reflexivity. Qed.

(** ** [max_align_t] *)

(** [max_align_t] is as aligned as [long], whatever the target. *)
Lemma max_align_t_alignment tgt L : alignof tgt L max_align_t = Some (al_long tgt).
Proof. rewrite max_align_t_is_long. reflexivity. Qed.

(** On LP64 with an 8-byte [long double] no scalar type is more aligned. *)
Example max_align_t_strictest_on_lp64 t a :
  is_scalar t = true -> alignof lp64 ∅ t = Some a -> a <= al_long lp64.
Proof.
  destruct t as [| | r s | k | t | ret ps | tag]; try discriminate; intros _.
  - intros [= <-]. cbn. lia.
  - destruct r; intros [= <-]; cbn; lia.
  - destruct k; intros [= <-]; cbn; lia.
  - intros [= <-]. cbn. lia.
Qed.

(** On System V x86-64 [long double] is more aligned than [long]. *)
Example long_double_stricter_on_sysv :
  alignof lp64_sysv ∅ max_align_t = Some 8 /\
  alignof lp64_sysv ∅ (Tfloating F_ldouble) = Some 16.
Proof. rewrite max_align_t_is_long. split; reflexivity. Qed.

(** ** The include guard *)

(** In a skipped group only the nesting of conditionals is tracked. *)
Lemma pp_step_skipped st l :
  pp_active st = false ->
  pp_step st l =
    match l with
    | PP_ifndef _ => {| pp_macros := pp_macros st; pp_conds := false :: pp_conds st;
                        pp_out := pp_out st; pp_diags := pp_diags st |}
    | PP_endif => {| pp_macros := pp_macros st; pp_conds := tail (pp_conds st);
                     pp_out := pp_out st; pp_diags := pp_diags st |}
    | _ => st
    end.
Proof.
  intros H. destruct l; unfold pp_step; rewrite ?H; try reflexivity.
  unfold pp_active in H. destruct (pp_conds st); [discriminate | reflexivity].
Qed.

(** Inside a skipped group, or with the guard defined, the inclusion
    changes nothing: no macro, no output token, no diagnostic. *)
Lemma include_stddef_skipped st :
  pp_active st = false \/ pp_macros st !! _XCC_STDDEF_H <> None ->
  include_stddef st = st.
Proof.
  intros H.
  assert (Hpush : pp_step st (PP_ifndef _XCC_STDDEF_H) =
     {| pp_macros := pp_macros st; pp_conds := false :: pp_conds st;
        pp_out := pp_out st; pp_diags := pp_diags st |}).
  { unfold pp_step. f_equal. f_equal. destruct H as [-> | H]; [reflexivity |].
    rewrite bool_decide_eq_false_2 by assumption. apply andb_false_r. }
  unfold include_stddef, preprocess, stddef_h.
  cbn [fold_left]. rewrite Hpush.
  repeat (rewrite pp_step_skipped by reflexivity;
          cbn [pp_macros pp_conds pp_out pp_diags tail]).
  destruct st; reflexivity.
Qed.

Lemma pp_frame_text st ts : pp_frame (pp_step st (PP_text ts)) = pp_frame st.
Proof.
  unfold pp_step. destruct (pp_active st); [| reflexivity].
  destruct (expand _ _ _ _); reflexivity.
Qed.

Lemma pp_frame_define st x m M cs :
  pp_frame st = (M, true :: cs) ->
  pp_frame (pp_step st (PP_define x m)) = (<[x := m]> M, true :: cs).
Proof.
  unfold pp_frame, pp_step, pp_active. intros [= <- ->]. reflexivity.
Qed.

Lemma pp_frame_endif st M b cs :
  pp_frame st = (M, b :: cs) -> pp_frame (pp_step st PP_endif) = (M, cs).
Proof. unfold pp_frame, pp_step. intros [= <- ->]. reflexivity. Qed.

(** A processed inclusion defines the three macros of the header and
    leaves the stack of conditionals as it was. *)
Lemma pp_frame_include_stddef st :
  pp_active st = true -> pp_macros st !! _XCC_STDDEF_H = None ->
  pp_frame (include_stddef st) =
    (<["offsetof"%string := offsetof]>
       (<["NULL"%string := NULL]>
          (<[_XCC_STDDEF_H := {| m_params := None; m_body := [] |}]> (pp_macros st))),
     pp_conds st).
Proof.
  intros Ha Hg.
  assert (H0 : pp_frame (pp_step st (PP_ifndef _XCC_STDDEF_H)) =
               (pp_macros st, true :: pp_conds st)).
  { unfold pp_frame, pp_step; cbn [pp_macros pp_conds].
    rewrite Ha, bool_decide_eq_true_2 by assumption. reflexivity. }
  unfold include_stddef, preprocess, stddef_h. cbn [fold_left].
  apply (pp_frame_endif _ _ true). rewrite pp_frame_text.
  apply pp_frame_define. apply pp_frame_define.
  rewrite !pp_frame_text. apply pp_frame_define. exact H0.
Qed.

Lemma include_stddef_defines_guard st :
  pp_active st = true -> pp_macros (include_stddef st) !! _XCC_STDDEF_H <> None.
Proof.
  intros Ha. destruct (pp_macros st !! _XCC_STDDEF_H) eqn:Hg.
  - rewrite include_stddef_skipped by (right; congruence). congruence.
  - pose proof (pp_frame_include_stddef st Ha Hg) as Hf.
    unfold pp_frame in Hf. injection Hf as Hm _. rewrite Hm.
    rewrite !lookup_insert_ne by done. rewrite lookup_insert_eq. done.
Qed.

(** No line but [#undef] of the guard makes the guard undefined. *)
Lemma pp_step_keeps_guard st l :
  l <> PP_undef _XCC_STDDEF_H ->
  pp_macros st !! _XCC_STDDEF_H <> None ->
  pp_macros (pp_step st l) !! _XCC_STDDEF_H <> None.
Proof.
  intros Hl Hg. destruct l as [x | x m | x | | ts]; unfold pp_step.
  - exact Hg.
  - destruct (pp_active st); [| exact Hg]. cbn [pp_macros].
    rewrite lookup_insert. case_decide; [discriminate | exact Hg].
  - destruct (pp_active st); [| exact Hg]. cbn [pp_macros].
    rewrite lookup_delete_ne; [exact Hg | congruence].
  - destruct (pp_conds st); exact Hg.
  - destruct (pp_active st); [| exact Hg]. destruct (expand _ _ _ _); exact Hg.
Qed.

Lemma preprocess_keeps_guard ls : forall st,
  Forall (fun l => l <> PP_undef _XCC_STDDEF_H) ls ->
  pp_macros st !! _XCC_STDDEF_H <> None ->
  pp_macros (preprocess st ls) !! _XCC_STDDEF_H <> None.
Proof.
  induction ls as [| l ls IH]; intros st Hls Hg; [exact Hg |].
  inversion Hls as [| ? ? Hl Hls']; subst. cbn.
  apply IH; [exact Hls' | exact (pp_step_keeps_guard st l Hl Hg)].
Qed.

Lemma include_stddef_unfold st : include_stddef st = preprocess st stddef_h.
Proof. reflexivity. Qed.

Lemma preprocess_app st ls1 ls2 :
  preprocess st (ls1 ++ ls2) = preprocess (preprocess st ls1) ls2.
Proof. unfold preprocess. apply fold_left_app. Qed.

Lemma include_stddef_idempotent st :
  include_stddef (include_stddef st) = include_stddef st.
Proof.
  destruct (pp_active st) eqn:Ha.
  - apply include_stddef_skipped. right. exact (include_stddef_defines_guard st Ha).
  - rewrite (include_stddef_skipped st) by (left; assumption).
    apply include_stddef_skipped. left; assumption.
Qed.

(** C8.  After a first inclusion that was processed, a second inclusion --
    directly, or after any lines [ls] in between that do not undefine the
    guard -- leaves the state of the preprocessor as it is: the same
    macros, no token added to the translation unit, no diagnostic.  What
    is translated is then the same, with the same typedef names and the
    same diagnostics: none is a redefinition. *)
Theorem second_inclusion_is_noop st ls :
  pp_active st = true ->
  Forall (fun l => l <> PP_undef _XCC_STDDEF_H) ls ->
  include_stddef (include_stddef st) = include_stddef st /\
  preprocess st (stddef_h ++ ls ++ stddef_h) = preprocess st (stddef_h ++ ls) /\
  pp_diags (preprocess st (stddef_h ++ ls ++ stddef_h)) =
    pp_diags (preprocess st (stddef_h ++ ls)) /\
  pp_macros (preprocess st (stddef_h ++ ls ++ stddef_h)) =
    pp_macros (preprocess st (stddef_h ++ ls)) /\
  translate (pp_out (preprocess st (stddef_h ++ ls ++ stddef_h))) =
    translate (pp_out (preprocess st (stddef_h ++ ls))).
Proof.
  intros Ha Hls.
  assert (H : preprocess st (stddef_h ++ ls ++ stddef_h) = preprocess st (stddef_h ++ ls)).
  { rewrite app_assoc, (preprocess_app st (stddef_h ++ ls) stddef_h).
    rewrite <- (include_stddef_unfold (preprocess st (stddef_h ++ ls))).
    apply include_stddef_skipped. right.
    rewrite preprocess_app. apply preprocess_keeps_guard; [exact Hls |].
    rewrite <- (include_stddef_unfold st).
    exact (include_stddef_defines_guard st Ha). }
  split; [apply include_stddef_idempotent |]. rewrite H. auto.
Qed.

Lemma fresh_unit_included_twice :
  let ls := [PP_define "BUFSIZE" {| m_params := None; m_body := [Tk_num 512] |};
             PP_text [Tk_kw KW_typedef; Tk_ident "size_t"; Tk_ident "len_t"; Tk_punct SEMI]] in
  pp_active pp_init = true /\
  Forall (fun l => l <> PP_undef _XCC_STDDEF_H) ls /\
  include_stddef (include_stddef pp_init) = include_stddef pp_init /\
  preprocess pp_init (stddef_h ++ ls ++ stddef_h) = preprocess pp_init (stddef_h ++ ls) /\
  pp_diags (preprocess pp_init (stddef_h ++ ls ++ stddef_h)) =
    pp_diags (preprocess pp_init (stddef_h ++ ls)) /\
  pp_macros (preprocess pp_init (stddef_h ++ ls ++ stddef_h)) =
    pp_macros (preprocess pp_init (stddef_h ++ ls)) /\
  translate (pp_out (preprocess pp_init (stddef_h ++ ls ++ stddef_h))) =
    translate (pp_out (preprocess pp_init (stddef_h ++ ls))).
Proof.
  intros ls.
  assert (Ha : pp_active pp_init = true) by reflexivity.
  assert (Hls : Forall (fun l => l <> PP_undef _XCC_STDDEF_H) ls).
  { repeat constructor; discriminate. }
  repeat (split; [assumption |]).
  exact (second_inclusion_is_noop pp_init ls Ha Hls).
Defined.

(** The guard is what makes it so: the lines between [#ifndef] and
    [#endif], included twice on their own, put every declaration into the
    translation unit twice. *)
Example unguarded_inclusion_repeats :
  length (pp_out (preprocess pp_init stddef_unguarded)) = 17%nat /\
  length (pp_out (preprocess pp_init (stddef_unguarded ++ stddef_unguarded))) = 34%nat.
Proof. split; vm_compute; reflexivity. Qed.

Example guarded_inclusion_clean :
  pp_diags (preprocess pp_init (stddef_h ++ stddef_h)) = [] /\
  sema_diags (translate (pp_out (preprocess pp_init (stddef_h ++ stddef_h)))) = [] /\
  length (pp_out (preprocess pp_init (stddef_h ++ stddef_h))) = 17%nat.
Proof. repeat split; vm_compute; reflexivity. Qed.

(** * Further properties *)

(** ** A processed inclusion *)

Lemma pp_step_text_processed M cs out ds ts ts' :
  expand pp_fuel M [] ts = Some ts' ->
  pp_step {| pp_macros := M; pp_conds := true :: cs; pp_out := out; pp_diags := ds |}
    (PP_text ts) =
    {| pp_macros := M; pp_conds := true :: cs; pp_out := out ++ ts'; pp_diags := ds |}.
Proof.
  intros He. unfold pp_step, pp_active. cbn [pp_macros pp_conds pp_out pp_diags].
  rewrite He. reflexivity.
Qed.

Lemma pp_step_define_processed M cs out ds x m :
  pp_step {| pp_macros := M; pp_conds := true :: cs; pp_out := out; pp_diags := ds |}
    (PP_define x m) =
    {| pp_macros := <[x := m]> M; pp_conds := true :: cs; pp_out := out;
       pp_diags := match M !! x with
                   | Some m' => if bool_decide (m' = m) then ds
                                else ds ++ [Diag_macro_redefined x]
                   | None => ds
                   end |}.
Proof. reflexivity. Qed.

Ltac expand_line :=
  unfold pp_fuel;
  repeat first
    [ rewrite expand_nil
    | rewrite expand_kw
    | rewrite expand_punct
    | rewrite expand_not_macro by (rewrite ?lookup_insert_ne by done; assumption) ];
  reflexivity.

(** The state after an inclusion that is processed: the guard was not
    defined, and no word of the typedef lines is a macro. *)
Lemma include_stddef_processed st :
  pp_active st = true ->
  pp_macros st !! _XCC_STDDEF_H = None ->
  typedef_lines_free (pp_macros st) ->
  include_stddef st =
    {| pp_macros :=
         <["offsetof"%string := offsetof]>
           (<["NULL"%string := NULL]>
              (<[_XCC_STDDEF_H := {| m_params := None; m_body := [] |}]> (pp_macros st)));
       pp_conds := pp_conds st;
       pp_out := pp_out st ++ pp_out stddef_pp;
       pp_diags := pp_diags st ++ redefinition_diags (pp_macros st) |}.
Proof.
  intros Ha Hg ((Hp & Hs & Hw & Hm) & _).
  destruct st as [M cs out ds]. cbn [pp_macros pp_conds pp_out pp_diags] in *.
  unfold pp_active in Ha; cbn [pp_conds] in Ha.
  unfold include_stddef, preprocess, stddef_h. cbn [fold_left].
  assert (H1 : pp_step {| pp_macros := M; pp_conds := cs; pp_out := out; pp_diags := ds |}
                 (PP_ifndef _XCC_STDDEF_H) =
               {| pp_macros := M; pp_conds := true :: cs; pp_out := out; pp_diags := ds |}).
  { unfold pp_step, pp_active; cbn [pp_macros pp_conds pp_out pp_diags].
    rewrite bool_decide_eq_true_2 by exact Hg.
    destruct cs; [reflexivity | subst; reflexivity]. }
  rewrite H1. clear H1 Ha.
  rewrite pp_step_define_processed, Hg.
  do 3 (erewrite pp_step_text_processed; [| expand_line]).
  rewrite !pp_step_define_processed.
  erewrite pp_step_text_processed; [| expand_line].
  rewrite (lookup_insert_ne _ _XCC_STDDEF_H "NULL") by done.
  rewrite (lookup_insert_ne _ "NULL" "offsetof") by done.
  rewrite (lookup_insert_ne _ _XCC_STDDEF_H "offsetof") by done.
  unfold pp_step at 1. cbn [pp_macros pp_conds pp_out pp_diags].
  f_equal.
  - rewrite <- !app_assoc. reflexivity.
  - unfold redefinition_diags.
    destruct (M !! "NULL"%string) as [mN |]; destruct (M !! "offsetof"%string) as [mO |];
      repeat case_bool_decide; rewrite ?app_nil_r, <- ?app_assoc; reflexivity.
Qed.

(** X1.  An inclusion, in whatever state, touches three macro names only:
    the guard, [NULL] and [offsetof].  Every other macro is defined, or
    undefined, after the inclusion exactly as before. *)
Theorem include_stddef_macro_frame st x :
  x <> _XCC_STDDEF_H -> x <> "NULL"%string -> x <> "offsetof"%string ->
  pp_macros (include_stddef st) !! x = pp_macros st !! x.
Proof.
  intros Hg Hn Ho.
  destruct (pp_active st) eqn:Ha;
    [destruct (pp_macros st !! _XCC_STDDEF_H) eqn:Hd |].
  - rewrite include_stddef_skipped by (right; congruence). reflexivity.
  - pose proof (pp_frame_include_stddef st Ha Hd) as Hf.
    unfold pp_frame in Hf. injection Hf as Hm _. rewrite Hm.
    rewrite !lookup_insert_ne by congruence. reflexivity.
  - rewrite include_stddef_skipped by (left; exact Ha). reflexivity.
Qed.

Lemma user_macro_survives_inclusion :
  let st := preprocess pp_init
              [PP_define "BUFSIZE" {| m_params := None; m_body := [Tk_num 512] |}] in
  "BUFSIZE"%string <> _XCC_STDDEF_H /\ "BUFSIZE"%string <> "NULL"%string /\
  "BUFSIZE"%string <> "offsetof"%string /\
  pp_macros (include_stddef st) !! "BUFSIZE"%string = pp_macros st !! "BUFSIZE"%string.
Proof.
  intros st.
  assert (H1 : "BUFSIZE"%string <> _XCC_STDDEF_H) by discriminate.
  assert (H2 : "BUFSIZE"%string <> "NULL"%string) by discriminate.
  assert (H3 : "BUFSIZE"%string <> "offsetof"%string) by discriminate.
  repeat (split; [assumption |]).
  exact (include_stddef_macro_frame st "BUFSIZE" H1 H2 H3).
Defined.

(** X2.  The [#ifndef] and the [#endif] of the header are balanced: in
    whatever state the header is included -- processed, guarded out or
    inside a skipped group -- the stack of open conditionals is afterwards
    what it was before. *)
Theorem include_stddef_balanced st :
  pp_conds (include_stddef st) = pp_conds st.
Proof.
  destruct (pp_active st) eqn:Ha;
    [destruct (pp_macros st !! _XCC_STDDEF_H) eqn:Hd |].
  - rewrite include_stddef_skipped by (right; congruence). reflexivity.
  - pose proof (pp_frame_include_stddef st Ha Hd) as Hf.
    unfold pp_frame in Hf. injection Hf as _ Hc. exact Hc.
  - rewrite include_stddef_skipped by (left; exact Ha). reflexivity.
Qed.

(** X3.  A processed inclusion passes on to translation the tokens of the
    four typedef declarations and nothing else, whatever other macros are
    defined, as long as no word of the typedef lines -- none of the four
    type names, none of the keywords [typedef], [long], [unsigned], [int]
    -- is a macro. *)
Theorem include_stddef_emits_declarations st :
  pp_active st = true ->
  pp_macros st !! _XCC_STDDEF_H = None ->
  typedef_lines_free (pp_macros st) ->
  pp_out (include_stddef st) = pp_out st ++ pp_out stddef_pp /\
  length (pp_out stddef_pp) = 17%nat.
Proof.
  intros Ha Hg Hf. rewrite (include_stddef_processed st Ha Hg Hf).
  split; reflexivity.
Qed.

(** X4.  The only diagnostics a processed inclusion adds are macro
    redefinitions of [NULL] and of [offsetof].  There is none for a name
    that was not defined before, and there is one for a name that was
    defined before with other parameters or other replacement tokens. *)
Theorem include_stddef_diagnostics st :
  pp_active st = true ->
  pp_macros st !! _XCC_STDDEF_H = None ->
  typedef_lines_free (pp_macros st) ->
  exists ds,
    pp_diags (include_stddef st) = pp_diags st ++ ds /\
    (forall d, In d ds ->
       d = Diag_macro_redefined "NULL" \/ d = Diag_macro_redefined "offsetof") /\
    (pp_macros st !! "NULL"%string = None -> ~ In (Diag_macro_redefined "NULL") ds) /\
    (pp_macros st !! "offsetof"%string = None ->
       ~ In (Diag_macro_redefined "offsetof") ds) /\
    (pp_macros st !! "NULL"%string = None -> pp_macros st !! "offsetof"%string = None ->
       ds = []) /\
    (forall m, pp_macros st !! "NULL"%string = Some m -> m <> NULL ->
       In (Diag_macro_redefined "NULL") ds) /\
    (forall m, pp_macros st !! "offsetof"%string = Some m -> m <> offsetof ->
       In (Diag_macro_redefined "offsetof") ds).
Proof.
  intros Ha Hg Hf. rewrite (include_stddef_processed st Ha Hg Hf).
  cbn [pp_diags]. exists (redefinition_diags (pp_macros st)).
  split; [reflexivity |]. unfold redefinition_diags.
  destruct (pp_macros st !! "NULL"%string) as [mN |];
    destruct (pp_macros st !! "offsetof"%string) as [mO |];
    repeat case_bool_decide; cbn [app];
    repeat split; intros; cbn [In] in *;
    repeat match goal with
           | H : _ \/ _ |- _ => destruct H
           | H : False |- _ => destruct H
           | H : Some _ = Some _ |- _ => injection H as H
           end;
    subst; try discriminate; try congruence; auto;
    intros [Hd | []]; discriminate.
Qed.

(** X5.  After a processed inclusion [NULL] and [offsetof] are the macros
    of the header, whatever they were before: the header neither tests nor
    undefines them, it defines them. *)
Theorem include_stddef_defines_macros st :
  pp_active st = true ->
  pp_macros st !! _XCC_STDDEF_H = None ->
  pp_macros (include_stddef st) !! "NULL"%string = Some NULL /\
  pp_macros (include_stddef st) !! "offsetof"%string = Some offsetof /\
  pp_macros (include_stddef st) !! _XCC_STDDEF_H =
    Some {| m_params := None; m_body := [] |}.
Proof.
  intros Ha Hd. pose proof (pp_frame_include_stddef st Ha Hd) as Hf.
  unfold pp_frame in Hf. injection Hf as Hm _. rewrite Hm.
  repeat split.
  - rewrite lookup_insert_ne by done. apply lookup_insert_eq.
  - apply lookup_insert_eq.
  - rewrite !lookup_insert_ne by done. apply lookup_insert_eq.
Qed.

Lemma after_plain_NULL_ready :
  pp_active after_plain_NULL = true /\
  pp_macros after_plain_NULL !! _XCC_STDDEF_H = None /\
  typedef_lines_free (pp_macros after_plain_NULL).
Proof. repeat split; vm_compute; reflexivity. Qed.

Lemma plain_NULL_then_declarations :
  pp_active after_plain_NULL = true /\
  pp_macros after_plain_NULL !! _XCC_STDDEF_H = None /\
  typedef_lines_free (pp_macros after_plain_NULL) /\
  pp_out (include_stddef after_plain_NULL) = pp_out after_plain_NULL ++ pp_out stddef_pp /\
  length (pp_out stddef_pp) = 17%nat.
Proof.
  destruct after_plain_NULL_ready as (Ha & Hg & Hf).
  repeat (split; [assumption |]).
  exact (include_stddef_emits_declarations after_plain_NULL Ha Hg Hf).
Defined.

Lemma plain_NULL_then_redefinition :
  pp_active after_plain_NULL = true /\
  pp_macros after_plain_NULL !! _XCC_STDDEF_H = None /\
  typedef_lines_free (pp_macros after_plain_NULL) /\
  exists ds,
    pp_diags (include_stddef after_plain_NULL) = pp_diags after_plain_NULL ++ ds /\
    (forall d, In d ds ->
       d = Diag_macro_redefined "NULL" \/ d = Diag_macro_redefined "offsetof") /\
    (pp_macros after_plain_NULL !! "NULL"%string = None ->
       ~ In (Diag_macro_redefined "NULL") ds) /\
    (pp_macros after_plain_NULL !! "offsetof"%string = None ->
       ~ In (Diag_macro_redefined "offsetof") ds) /\
    (pp_macros after_plain_NULL !! "NULL"%string = None ->
     pp_macros after_plain_NULL !! "offsetof"%string = None -> ds = []) /\
    (forall m, pp_macros after_plain_NULL !! "NULL"%string = Some m -> m <> NULL ->
       In (Diag_macro_redefined "NULL") ds) /\
    (forall m, pp_macros after_plain_NULL !! "offsetof"%string = Some m -> m <> offsetof ->
       In (Diag_macro_redefined "offsetof") ds).
Proof.
  destruct after_plain_NULL_ready as (Ha & Hg & Hf).
  repeat (split; [assumption |]).
  exact (include_stddef_diagnostics after_plain_NULL Ha Hg Hf).
Defined.

Example plain_NULL_is_diagnosed :
  pp_diags (include_stddef after_plain_NULL) = [Diag_macro_redefined "NULL"].
Proof. vm_compute. reflexivity. Qed.

Lemma plain_NULL_is_replaced :
  pp_active after_plain_NULL = true /\
  pp_macros after_plain_NULL !! _XCC_STDDEF_H = None /\
  pp_macros (include_stddef after_plain_NULL) !! "NULL"%string = Some NULL /\
  pp_macros (include_stddef after_plain_NULL) !! "offsetof"%string = Some offsetof /\
  pp_macros (include_stddef after_plain_NULL) !! _XCC_STDDEF_H =
    Some {| m_params := None; m_body := [] |}.
Proof.
  destruct after_plain_NULL_ready as (Ha & Hg & _).
  repeat (split; [assumption |]).
  exact (include_stddef_defines_macros after_plain_NULL Ha Hg).
Defined.

(** ** Inclusion after [#undef] of the guard *)

Lemma header_macros_again (M : gmap string macro) :
  <["offsetof"%string := offsetof]>
    (<["NULL"%string := NULL]>
       (<[_XCC_STDDEF_H := {| m_params := None; m_body := [] |}]>
          (delete _XCC_STDDEF_H
             (<["offsetof"%string := offsetof]>
                (<["NULL"%string := NULL]>
                   (<[_XCC_STDDEF_H := {| m_params := None; m_body := [] |}]> M)))))) =
  <["offsetof"%string := offsetof]>
    (<["NULL"%string := NULL]>
       (<[_XCC_STDDEF_H := {| m_params := None; m_body := [] |}]> M)).
Proof.
  apply map_eq. intros x.
  destruct (decide (x = "offsetof"%string)) as [-> | Ho];
    [rewrite !lookup_insert_eq; reflexivity |].
  rewrite !(lookup_insert_ne _ "offsetof" x) by congruence.
  destruct (decide (x = "NULL"%string)) as [-> | Hn];
    [rewrite !lookup_insert_eq; reflexivity |].
  rewrite !(lookup_insert_ne _ "NULL" x) by congruence.
  destruct (decide (x = _XCC_STDDEF_H)) as [-> | Hg];
    [rewrite !lookup_insert_eq; reflexivity |].
  rewrite !(lookup_insert_ne _ _XCC_STDDEF_H x) by congruence.
  rewrite lookup_delete_ne by congruence.
  rewrite !lookup_insert_ne by congruence. reflexivity.
Qed.

(** X6.  When the guard is undefined after an inclusion and the header is
    included again, the header is processed again: the four declarations
    are passed on a second time, and [NULL] and [offsetof] are defined a
    second time, with the same replacement -- so the macros are those
    after the first inclusion and there is no further diagnostic.  (No
    word of the typedef lines is a macro.) *)
Theorem inclusion_after_undef st :
  pp_active st = true ->
  pp_macros st !! _XCC_STDDEF_H = None ->
  typedef_lines_free (pp_macros st) ->
  let st1 := include_stddef st in
  let st2 := include_stddef (pp_step st1 (PP_undef _XCC_STDDEF_H)) in
  pp_macros st2 = pp_macros st1 /\
  pp_diags st2 = pp_diags st1 /\
  pp_out st2 = pp_out st1 ++ pp_out stddef_pp.
Proof.
  intros Ha Hg Hf st1 st2. subst st1 st2.
  rewrite (include_stddef_processed st Ha Hg Hf).
  assert (Hu : forall M cs out ds,
             pp_active {| pp_macros := M; pp_conds := cs; pp_out := out; pp_diags := ds |} = true ->
             pp_step {| pp_macros := M; pp_conds := cs; pp_out := out; pp_diags := ds |}
               (PP_undef _XCC_STDDEF_H) =
             {| pp_macros := delete _XCC_STDDEF_H M; pp_conds := cs;
                pp_out := out; pp_diags := ds |}).
  { intros M cs out ds H. unfold pp_step. rewrite H. reflexivity. }
  rewrite Hu by exact Ha. clear Hu.
  destruct Hf as ((Hp & Hs & Hw & Hm) & Hkt & Hkl & Hku & Hki).
  rewrite include_stddef_processed; cbn [pp_macros pp_conds pp_out pp_diags].
  - rewrite header_macros_again. repeat split.
    unfold redefinition_diags at 2.
    rewrite lookup_delete_ne by done.
    rewrite (lookup_insert_ne _ "offsetof" "NULL") by done.
    rewrite lookup_insert_eq.
    rewrite lookup_delete_ne by done. rewrite lookup_insert_eq.
    rewrite !bool_decide_eq_true_2 by reflexivity. apply app_nil_r.
  - exact Ha.
  - apply lookup_delete_eq.
  - cbn [keyword_name] in *.
    repeat split; rewrite lookup_delete_ne by done;
      rewrite !lookup_insert_ne by done; assumption.
Qed.

Lemma fresh_unit_undef_and_again :
  pp_active pp_init = true /\
  pp_macros pp_init !! _XCC_STDDEF_H = None /\
  typedef_lines_free (pp_macros pp_init) /\
  let st1 := include_stddef pp_init in
  let st2 := include_stddef (pp_step st1 (PP_undef _XCC_STDDEF_H)) in
  pp_macros st2 = pp_macros st1 /\
  pp_diags st2 = pp_diags st1 /\
  pp_out st2 = pp_out st1 ++ pp_out stddef_pp.
Proof.
  assert (Ha : pp_active pp_init = true) by reflexivity.
  assert (Hg : pp_macros pp_init !! _XCC_STDDEF_H = None) by reflexivity.
  assert (Hf : typedef_lines_free (pp_macros pp_init)) by (repeat split; reflexivity).
  repeat (split; [assumption |]).
  exact (inclusion_after_undef pp_init Ha Hg Hf).
Defined.

(** ** Invocations of [offsetof] *)


Lemma macro_free_app M ts1 ts2 :
  macro_free M ts1 -> macro_free M ts2 -> macro_free M (ts1 ++ ts2).
Proof.
  intros H1 H2 x Hx. apply in_app_or in Hx. destruct Hx; [apply H1 | apply H2]; assumption.
Qed.



(** X8.  [offsetof] is a function-like macro of two parameters.  Its name
    is replaced only where an opening parenthesis follows; an invocation
    whose parentheses do not close, or which has a number of arguments other
    than two, is not replaceable. *)
Theorem offsetof_needs_two_arguments M f hide :
  M !! "offsetof"%string = Some offsetof ->
  "offsetof"%string ∉ hide ->
  (forall rest, (forall rest', rest <> Tk_punct LPAREN :: rest') ->
     expand (S f) M hide (Tk_ident "offsetof" :: rest) =
       cons (Tk_ident "offsetof") <$> expand f M hide rest) /\
  (forall ts, collect_args O [] [] ts = None ->
     expand (S f) M hide (Tk_ident "offsetof" :: Tk_punct LPAREN :: ts) = None) /\
  (forall ts args rest, collect_args O [] [] ts = Some (args, rest) ->
     length args <> 2%nat ->
     expand (S f) M hide (Tk_ident "offsetof" :: Tk_punct LPAREN :: ts) = None).
Proof.
  intros Ho Hh. repeat split.
  - intros rest Hrest. cbn [expand]. rewrite Ho. cbn [offsetof].
    destruct rest as [| [k | x | n | p] rest']; try reflexivity.
    destruct p; try reflexivity. exfalso. exact (Hrest rest' eq_refl).
  - intros ts Hc. cbn [expand]. rewrite Ho. cbn [offsetof].
    rewrite bool_decide_eq_false_2 by exact Hh. rewrite Hc. reflexivity.
  - intros ts args rest Hc Hl. cbn [expand]. rewrite Ho. cbn [offsetof].
    rewrite bool_decide_eq_false_2 by exact Hh. rewrite Hc. cbv zeta.
    cbn [invocation_args length].
    rewrite bool_decide_eq_false_2 by exact Hl. reflexivity.
Qed.

Lemma offsetof_with_one_argument :
  pp_macros stddef_pp !! "offsetof"%string = Some offsetof /\
  ("offsetof"%string ∉ ([] : list string)) /\
  (forall rest, (forall rest', rest <> Tk_punct LPAREN :: rest') ->
     expand 32 (pp_macros stddef_pp) [] (Tk_ident "offsetof" :: rest) =
       cons (Tk_ident "offsetof") <$> expand 31 (pp_macros stddef_pp) [] rest) /\
  (forall ts, collect_args O [] [] ts = None ->
     expand 32 (pp_macros stddef_pp) [] (Tk_ident "offsetof" :: Tk_punct LPAREN :: ts) = None) /\
  (forall ts args rest, collect_args O [] [] ts = Some (args, rest) ->
     length args <> 2%nat ->
     expand 32 (pp_macros stddef_pp) [] (Tk_ident "offsetof" :: Tk_punct LPAREN :: ts) = None).
Proof.
  assert (Ho : pp_macros stddef_pp !! "offsetof"%string = Some offsetof)
    by (vm_compute; reflexivity).
  assert (Hh : "offsetof"%string ∉ ([] : list string)) by (intros H; inversion H).
  repeat (split; [assumption |]).
  exact (offsetof_needs_two_arguments (pp_macros stddef_pp) 31 [] Ho Hh).
Defined.

Example offsetof_edge_cases :
  expand 32 (pp_macros stddef_pp) []
    [Tk_ident "offsetof"; Tk_punct LPAREN; Tk_kw KW_struct; Tk_ident "S"; Tk_punct RPAREN]
    = None /\
  expand 32 (pp_macros stddef_pp) []
    [Tk_ident "p"; Tk_punct ARROW; Tk_ident "offsetof"; Tk_punct SEMI]
    = Some [Tk_ident "p"; Tk_punct ARROW; Tk_ident "offsetof"; Tk_punct SEMI].
Proof. split; vm_compute; reflexivity. Qed.

(** ** The ranges of [size_t] and [ptrdiff_t] *)

(** X9.  [SIZE_MAX] is [2 * PTRDIFF_MAX + 1], [PTRDIFF_MIN] is
    [- PTRDIFF_MAX - 1] and the least [size_t] is 0, on every target: the
    two types are the unsigned and the signed type of one rank. *)
Theorem SIZE_MAX_and_PTRDIFF_MAX tgt :
  wf_target tgt ->
  exists pmax smax,
    type_max tgt ptrdiff_t = Some pmax /\
    type_max tgt size_t = Some smax /\
    smax = 2 * pmax + 1 /\
    0 < pmax /\
    type_min tgt ptrdiff_t = Some (- pmax - 1) /\
    type_min tgt size_t = Some 0.
Proof.
  intros WF. rewrite ptrdiff_t_is_long, size_t_is_unsigned_long.
  exists (int_max tgt I_long Signed), (int_max tgt I_long Unsigned).
  pose proof (pow_bits_split tgt WF I_long) as Hs.
  pose proof (int_bits_pos tgt WF I_long) as Hb.
  assert (Hhalf : 2 ^ 7 <= 2 ^ (int_bits tgt I_long - 1)) by (apply Z.pow_le_mono_r; lia).
  cbn [type_max type_min]. unfold int_max, int_min.
  repeat split; try lia. f_equal. lia.
Qed.

Lemma SIZE_MAX_and_PTRDIFF_MAX_lp64 :
  wf_target lp64 /\
  exists pmax smax,
    type_max lp64 ptrdiff_t = Some pmax /\
    type_max lp64 size_t = Some smax /\
    smax = 2 * pmax + 1 /\
    0 < pmax /\
    type_min lp64 ptrdiff_t = Some (- pmax - 1) /\
    type_min lp64 size_t = Some 0.
Proof.
  split; [exact wf_lp64 | exact (SIZE_MAX_and_PTRDIFF_MAX lp64 wf_lp64)].
Defined.

(** X10.  Every value [d] of [ptrdiff_t], negative ones included, comes
    back unchanged from a conversion to [size_t] and back.  On the way a
    negative [d] is the value [d + SIZE_MAX + 1] of [size_t], which is
    above [PTRDIFF_MAX]: compared as a [size_t], a negative difference is
    a large size. *)
Theorem ptrdiff_t_through_size_t tgt d :
  wf_target tgt ->
  in_range tgt ptrdiff_t d ->
  exists u,
    cast_int tgt size_t d = Some u /\
    in_range tgt size_t u /\
    cast_int tgt ptrdiff_t u = Some d /\
    (d < 0 -> u = d + 2 ^ int_bits tgt I_long /\ int_max tgt I_long Signed < u).
Proof.
  intros WF Hd. rewrite ptrdiff_t_is_long, size_t_is_unsigned_long in *.
  cbn [in_range cast_int] in *. unfold int_min, int_max in *.
  pose proof (pow_bits_split tgt WF I_long) as Hs.
  pose proof (half_range_pos tgt WF I_long) as Hh.
  set (n := 2 ^ int_bits tgt I_long) in *.
  set (h := 2 ^ (int_bits tgt I_long - 1)) in *.
  exists (convert_int tgt I_long Unsigned d).
  unfold convert_int. fold n h.
  assert (Hcase : 0 <= d /\ d mod n = d \/ d < 0 /\ d mod n = d + n).
  { destruct (Z.lt_ge_cases d 0) as [Hlt | Hge].
    - right. split; [exact Hlt |].
      replace d with (d + n + (-1) * n) at 1 by lia.
      rewrite Z.mod_add by lia. apply Z.mod_small. lia.
    - left. split; [exact Hge | apply Z.mod_small; lia]. }
  split; [reflexivity |]. split; [lia |]. split; [| lia].
  f_equal. rewrite Zplus_mod_idemp_l. rewrite Z.mod_small by lia. lia.
Qed.

Lemma minus_one_through_size_t :
  wf_target lp64 /\ in_range lp64 ptrdiff_t (-1) /\
  exists u,
    cast_int lp64 size_t (-1) = Some u /\
    in_range lp64 size_t u /\
    cast_int lp64 ptrdiff_t u = Some (-1) /\
    (-1 < 0 -> u = -1 + 2 ^ int_bits lp64 I_long /\ int_max lp64 I_long Signed < u).
Proof.
  assert (H : in_range lp64 ptrdiff_t (-1)).
  { rewrite ptrdiff_t_is_long. vm_compute. split; congruence. }
  split; [exact wf_lp64 | split; [exact H |]].
  exact (ptrdiff_t_through_size_t lp64 (-1) wf_lp64 H).
Defined.

(** X11.  Every value [u] of [size_t] comes back unchanged from a
    conversion to [ptrdiff_t] and back; above [PTRDIFF_MAX] it is a
    negative [ptrdiff_t] on the way. *)
Theorem size_t_through_ptrdiff_t tgt u :
  wf_target tgt ->
  in_range tgt size_t u ->
  exists d,
    cast_int tgt ptrdiff_t u = Some d /\
    in_range tgt ptrdiff_t d /\
    cast_int tgt size_t d = Some u /\
    (int_max tgt I_long Signed < u -> d = u - 2 ^ int_bits tgt I_long /\ d < 0).
Proof.
  intros WF Hu. rewrite ptrdiff_t_is_long, size_t_is_unsigned_long in *.
  cbn [in_range cast_int] in *. unfold int_min, int_max in *.
  pose proof (pow_bits_split tgt WF I_long) as Hs.
  pose proof (half_range_pos tgt WF I_long) as Hh.
  set (n := 2 ^ int_bits tgt I_long) in *.
  set (h := 2 ^ (int_bits tgt I_long - 1)) in *.
  exists (convert_int tgt I_long Signed u).
  unfold convert_int. fold n h.
  pose proof (Z.mod_pos_bound (u + h) n ltac:(lia)) as Hm.
  assert (Hcase : u < h /\ (u + h) mod n = u + h \/ h <= u /\ (u + h) mod n = u + h - n).
  { destruct (Z.lt_ge_cases u h) as [Hlt | Hge].
    - left. split; [exact Hlt | apply Z.mod_small; lia].
    - right. split; [exact Hge |].
      replace ((u + h) mod n) with ((u + h - n + 1 * n) mod n) by (f_equal; lia).
      rewrite Z.mod_add by lia. apply Z.mod_small. lia. }
  split; [reflexivity |]. split; [lia |]. split; [| lia].
  f_equal. rewrite Zminus_mod_idemp_l.
  replace (u + h - h) with u by lia. apply Z.mod_small. lia.
Qed.

Lemma SIZE_MAX_through_ptrdiff_t :
  wf_target lp64 /\ in_range lp64 size_t (2 ^ 64 - 1) /\
  exists d,
    cast_int lp64 ptrdiff_t (2 ^ 64 - 1) = Some d /\
    in_range lp64 ptrdiff_t d /\
    cast_int lp64 size_t d = Some (2 ^ 64 - 1) /\
    (int_max lp64 I_long Signed < 2 ^ 64 - 1 ->
     d = 2 ^ 64 - 1 - 2 ^ int_bits lp64 I_long /\ d < 0).
Proof.
  assert (H : in_range lp64 size_t (2 ^ 64 - 1)).
  { rewrite size_t_is_unsigned_long. vm_compute. split; congruence. }
  split; [exact wf_lp64 | split; [exact H |]].
  exact (size_t_through_ptrdiff_t lp64 (2 ^ 64 - 1) wf_lp64 H).
Defined.

Lemma convert_int_signed_range tgt r v :
  wf_target tgt ->
  int_min tgt r Signed <= convert_int tgt r Signed v <= int_max tgt r Signed.
Proof.
  intros WF. unfold int_min, int_max, convert_int.
  pose proof (pow_bits_split tgt WF r) as Hs.
  pose proof (half_range_pos tgt WF r) as Hh.
  pose proof (Z.mod_pos_bound (v + 2 ^ (int_bits tgt r - 1)) (2 ^ int_bits tgt r)
                ltac:(lia)).
  lia.
Qed.

(** X12.  [ptrdiff_t] cannot hold a distance above [PTRDIFF_MAX]: for two
    addresses [p < q] that far apart (on a target where [long] is narrower
    than a pointer, the two ends of a large object), the difference
    [q - p] is not representable and the subtraction is undefined; so is
    [p - q] when the distance is above [PTRDIFF_MAX + 1]. *)
Theorem ptrdiff_t_undefined_beyond_PTRDIFF_MAX tgt p q :
  wf_target tgt ->
  int_max tgt I_long Signed < q - p ->
  ptr_sub tgt q p = None /\
  (int_max tgt I_long Signed + 1 < q - p -> ptr_sub tgt p q = None).
Proof.
  intros WF Hd. unfold ptr_sub. rewrite ptrdiff_t_is_long. cbn [cast_int].
  pose proof (convert_int_signed_range tgt I_long (q - p) WF) as H1.
  pose proof (convert_int_signed_range tgt I_long (p - q) WF) as H2.
  pose proof (half_range_pos tgt WF I_long) as Hh.
  unfold int_min, int_max in *.
  split.
  - destruct (Z.eqb_spec (convert_int tgt I_long Signed (q - p)) (q - p)); [lia | reflexivity].
  - intros Hd'.
    destruct (Z.eqb_spec (convert_int tgt I_long Signed (p - q)) (p - q)); [lia | reflexivity].
Qed.

Lemma distance_of_3GiB_on_llp64 :
  wf_target llp64 /\
  int_max llp64 I_long Signed < (4096 + 3 * 2 ^ 30) - 4096 /\
  ptr_sub llp64 (4096 + 3 * 2 ^ 30) 4096 = None /\
  (int_max llp64 I_long Signed + 1 < (4096 + 3 * 2 ^ 30) - 4096 ->
   ptr_sub llp64 4096 (4096 + 3 * 2 ^ 30) = None).
Proof.
  assert (H : int_max llp64 I_long Signed < (4096 + 3 * 2 ^ 30) - 4096)
    by (vm_compute; reflexivity).
  split; [exact wf_llp64 | split; [exact H |]].
  exact (ptrdiff_t_undefined_beyond_PTRDIFF_MAX llp64 4096 (4096 + 3 * 2 ^ 30) wf_llp64 H).
Defined.

(** ** The declarations of the header among earlier declarations *)

Lemma declare_long env x :
  declare env [Tk_kw KW_typedef; Tk_kw KW_long; Tk_ident x] =
    add_typedef env x (Tinteger I_long Signed).
Proof. reflexivity. Qed.

Lemma declare_unsigned_long env x :
  declare env [Tk_kw KW_typedef; Tk_kw KW_unsigned; Tk_kw KW_long; Tk_ident x] =
    add_typedef env x (Tinteger I_long Unsigned).
Proof. reflexivity. Qed.

Lemma declare_int env x :
  declare env [Tk_kw KW_typedef; Tk_kw KW_int; Tk_ident x] =
    add_typedef env x (Tinteger I_int Signed).
Proof. reflexivity. Qed.

Lemma translate_unfold ts : translate ts = translate_in tu_init ts.
Proof. reflexivity. Qed.

Lemma translate_in_stddef env :
  translate_in env (pp_out stddef_pp) =
    add_typedef
      (add_typedef
         (add_typedef
            (add_typedef env "ptrdiff_t" (Tinteger I_long Signed))
            "size_t" (Tinteger I_long Unsigned))
         "wchar_t" (Tinteger I_int Signed))
      "max_align_t" (Tinteger I_long Signed).
Proof.
  unfold translate_in.
  replace (split_declarations [] (pp_out stddef_pp)) with
    [ [Tk_kw KW_typedef; Tk_kw KW_long; Tk_ident "ptrdiff_t"];
      [Tk_kw KW_typedef; Tk_kw KW_unsigned; Tk_kw KW_long; Tk_ident "size_t"];
      [Tk_kw KW_typedef; Tk_kw KW_int; Tk_ident "wchar_t"];
      [Tk_kw KW_typedef; Tk_kw KW_long; Tk_ident "max_align_t"] ]
    by (vm_compute; reflexivity).
  cbn [fold_left].
  rewrite declare_long, declare_unsigned_long, declare_int, declare_long. reflexivity.
Qed.

Lemma add_typedef_lookup env x t y :
  typedefs (add_typedef env x t) !! y =
    match typedefs env !! y with
    | Some u => Some u
    | None => if decide (y = x) then Some t else None
    end.
Proof.
  unfold add_typedef. destruct (typedefs env !! x) as [t' |] eqn:Hx.
  - assert (Hy : typedefs (if bool_decide (t' = t) then env
                           else {| typedefs := typedefs env;
                                   sema_diags := sema_diags env ++ [Diag_typedef_redefined x] |})
                 = typedefs env) by (case_bool_decide; reflexivity).
    rewrite Hy. destruct (typedefs env !! y) eqn:Hl; [reflexivity |].
    destruct (decide (y = x)) as [-> | Hne]; [| reflexivity].
    rewrite Hx in Hl. discriminate.
  - cbn [typedefs]. rewrite lookup_insert.
    destruct (decide (x = y)) as [<- | Hne].
    + rewrite Hx. rewrite decide_True by reflexivity. reflexivity.
    + destruct (typedefs env !! y); [reflexivity |].
      rewrite decide_False by congruence. reflexivity.
Qed.

Lemma add_typedef_diags env x t :
  sema_diags (add_typedef env x t) = sema_diags env ++ typedef_conflict (typedefs env) x t.
Proof.
  unfold add_typedef, typedef_conflict.
  destruct (typedefs env !! x); [case_bool_decide |]; cbn [sema_diags];
    rewrite ?app_nil_r; reflexivity.
Qed.

Lemma typedef_conflict_ext E1 E2 x t :
  E1 !! x = E2 !! x -> typedef_conflict E1 x t = typedef_conflict E2 x t.
Proof. unfold typedef_conflict. intros ->. reflexivity. Qed.

Lemma translate_in_stddef_diags env :
  sema_diags (translate_in env (pp_out stddef_pp)) =
    sema_diags env ++ typedef_conflicts (typedefs env).
Proof.
  rewrite translate_in_stddef, !add_typedef_diags. unfold typedef_conflicts.
  rewrite <- !app_assoc. f_equal. f_equal. f_equal; [| f_equal].
  - apply typedef_conflict_ext. rewrite add_typedef_lookup.
    destruct (typedefs env !! "size_t"%string); reflexivity.
  - apply typedef_conflict_ext. rewrite !add_typedef_lookup.
    destruct (typedefs env !! "wchar_t"%string); reflexivity.
  - apply typedef_conflict_ext. rewrite !add_typedef_lookup.
    destruct (typedefs env !! "max_align_t"%string); reflexivity.
Qed.

(** X13.  Translated after earlier declarations, the header binds each of
    its four names that is still free to its type, leaves every name
    that is declared already with the type it has, and binds no other
    name.  Its diagnostics are the redefinitions of those of the four
    names that are declared already with another type, in the order of
    the header. *)
Theorem stddef_typedefs_among_earlier env x :
  typedefs (translate_in env (pp_out stddef_pp)) !! x =
    match typedefs env !! x with
    | Some t => Some t
    | None => resolve x
    end /\
  sema_diags (translate_in env (pp_out stddef_pp)) =
    sema_diags env ++ typedef_conflicts (typedefs env).
Proof.
  split; [| apply translate_in_stddef_diags].
  assert (Hr : resolve x =
               if decide (x = "ptrdiff_t"%string) then Some (Tinteger I_long Signed)
               else if decide (x = "size_t"%string) then Some (Tinteger I_long Unsigned)
               else if decide (x = "wchar_t"%string) then Some (Tinteger I_int Signed)
               else if decide (x = "max_align_t"%string) then Some (Tinteger I_long Signed)
               else None).
  { unfold resolve, stddef_tu.
    rewrite (translate_unfold (pp_out stddef_pp)).
    rewrite translate_in_stddef, !add_typedef_lookup. cbn [tu_init typedefs].
    rewrite lookup_empty. repeat case_decide; reflexivity. }
  rewrite Hr, translate_in_stddef, !add_typedef_lookup.
  destruct (typedefs env !! x); [reflexivity |]. repeat case_decide; reflexivity.
Qed.

(** X14.  Where every one of the four names is free or declared already
    with the type the header gives it (another header has declared
    [size_t], say), the declarations of the header raise no diagnostic. *)
Theorem stddef_typedefs_compatible env :
  (forall x t t', typedefs env !! x = Some t -> resolve x = Some t' -> t = t') ->
  sema_diags (translate_in env (pp_out stddef_pp)) = sema_diags env.
Proof.
  intros Hc. rewrite translate_in_stddef_diags.
  destruct typedefs_resolve as (Rp & Rs & Rw & Rm).
  unfold typedef_conflicts, typedef_conflict.
  destruct (typedefs env !! "ptrdiff_t"%string) as [tp |] eqn:Ep;
    [rewrite (Hc _ _ _ Ep Rp), bool_decide_eq_true_2 by reflexivity |];
  (destruct (typedefs env !! "size_t"%string) as [ts |] eqn:Es;
    [rewrite (Hc _ _ _ Es Rs), bool_decide_eq_true_2 by reflexivity |]);
  (destruct (typedefs env !! "wchar_t"%string) as [tw |] eqn:Ew;
    [rewrite (Hc _ _ _ Ew Rw), bool_decide_eq_true_2 by reflexivity |]);
  (destruct (typedefs env !! "max_align_t"%string) as [tm |] eqn:Em;
    [rewrite (Hc _ _ _ Em Rm), bool_decide_eq_true_2 by reflexivity |]);
  apply app_nil_r.
Qed.

Lemma size_t_declared_twice :
  (forall x t t', typedefs after_same_size_t !! x = Some t -> resolve x = Some t' -> t = t') /\
  sema_diags (translate_in after_same_size_t (pp_out stddef_pp)) =
    sema_diags after_same_size_t.
Proof.
  assert (H : forall x t t', typedefs after_same_size_t !! x = Some t ->
                             resolve x = Some t' -> t = t').
  { intros x t t' Hx Hr.
    assert (Hl : typedefs after_same_size_t !! x =
                 if decide (x = "size_t"%string) then Some (Tinteger I_long Unsigned)
                 else None).
    { unfold after_same_size_t, translate.
      cbn [split_declarations rev app fold_left].
      rewrite declare_unsigned_long, add_typedef_lookup. cbn [tu_init typedefs].
      rewrite lookup_empty. reflexivity. }
    rewrite Hl in Hx. case_decide; [| discriminate]. subst x.
    rewrite (proj1 (proj2 typedefs_resolve)) in Hr. congruence. }
  split; [exact H | exact (stddef_typedefs_compatible after_same_size_t H)].
Defined.

Example narrow_size_t_is_diagnosed_and_kept :
  sema_diags (translate_in after_narrow_size_t (pp_out stddef_pp)) =
    [Diag_typedef_redefined "size_t"] /\
  typedefs (translate_in after_narrow_size_t (pp_out stddef_pp)) !! "size_t"%string =
    Some (Tinteger I_int Unsigned) /\
  typedefs (translate_in after_narrow_size_t (pp_out stddef_pp)) !! "ptrdiff_t"%string =
    Some (Tinteger I_long Signed).
Proof. repeat split; vm_compute; reflexivity. Qed.

(** ** The macros after an inclusion, in use *)

Lemma expression_in_offsetof M E tag m :
  M !! "offsetof"%string = Some offsetof ->
  M !! "__builtin_offsetof"%string = None ->
  M !! tag = None -> M !! m = None ->
  expression_in M E (use_offsetof tag m) = Some (E_offsetof (Tstruct tag) m).
Proof.
  intros Ho Hb Ht Hm.
  unfold expression_in, use_offsetof, use_fuel.
  rewrite (expand_function_macro 31 _ [] _ ["type"; "member"]%string (m_body offsetof) _
             [[Tk_kw KW_struct; Tk_ident tag]; [Tk_ident m]] [] Ho);
    [ | intros Hin; inversion Hin | reflexivity | reflexivity | reflexivity ].
  cbn [expand_all]. expand_tokens.
  cbn [offsetof m_body subst_params param_arg String.eqb Ascii.eqb Bool.eqb app].
  expand_tokens. reflexivity.
Qed.

(** X15.  After a processed inclusion [NULL] denotes [((void * )0)],
    whatever the program had defined before -- [NULL] itself included --
    and whatever typedef names are in scope, as long as the program has
    not defined [void], the one word of the replacement, as a macro. *)
Theorem NULL_after_inclusion st E :
  pp_active st = true ->
  pp_macros st !! _XCC_STDDEF_H = None ->
  pp_macros st !! keyword_name KW_void = None ->
  expression_in (pp_macros (include_stddef st)) E use_NULL =
    Some (E_paren (E_cast (Tpointer Tvoid) (E_int 0))) /\
  is_null_pointer_constant (E_paren (E_cast (Tpointer Tvoid) (E_int 0))) = true.
Proof.
  intros Ha Hg _. split; [| reflexivity]. apply expression_in_NULL.
  pose proof (pp_frame_include_stddef st Ha Hg) as Hf.
  unfold pp_frame in Hf. injection Hf as Hm _. rewrite Hm.
  rewrite lookup_insert_ne by done. rewrite lookup_insert_eq.
  symmetry. exact (proj1 stddef_macros).
Qed.

Lemma plain_NULL_becomes_pointer :
  pp_active after_plain_NULL = true /\
  pp_macros after_plain_NULL !! _XCC_STDDEF_H = None /\
  pp_macros after_plain_NULL !! keyword_name KW_void = None /\
  expression_in (pp_macros (include_stddef after_plain_NULL)) ∅ use_NULL =
    Some (E_paren (E_cast (Tpointer Tvoid) (E_int 0))) /\
  is_null_pointer_constant (E_paren (E_cast (Tpointer Tvoid) (E_int 0))) = true.
Proof.
  destruct after_plain_NULL_ready as (Ha & Hg & _).
  assert (Hv : pp_macros after_plain_NULL !! keyword_name KW_void = None)
    by (vm_compute; reflexivity).
  repeat (split; [assumption |]).
  exact (NULL_after_inclusion after_plain_NULL ∅ Ha Hg Hv).
Defined.

(** X16.  After a processed inclusion [offsetof(struct tag, m)] denotes
    the intrinsic [__builtin_offsetof(struct tag, m)], whatever other
    macros the program had defined before, as long as no word of the
    invocation and of its replacement is a macro itself: not [struct], not
    the tag, not the member, not the name of the intrinsic. *)
Theorem offsetof_after_inclusion st E tag m :
  pp_active st = true ->
  pp_macros st !! _XCC_STDDEF_H = None ->
  pp_macros st !! "__builtin_offsetof"%string = None ->
  pp_macros st !! keyword_name KW_struct = None ->
  pp_macros (include_stddef st) !! tag = None ->
  pp_macros (include_stddef st) !! m = None ->
  expression_in (pp_macros (include_stddef st)) E (use_offsetof tag m) =
    Some (E_offsetof (Tstruct tag) m).
Proof.
  intros Ha Hg Hb _ Ht Hm. apply expression_in_offsetof; [| | exact Ht | exact Hm].
  - pose proof (pp_frame_include_stddef st Ha Hg) as Hf.
    unfold pp_frame in Hf. injection Hf as Hmac _. rewrite Hmac.
    apply lookup_insert_eq.
  - pose proof (pp_frame_include_stddef st Ha Hg) as Hf.
    unfold pp_frame in Hf. injection Hf as Hmac _. rewrite Hmac.
    rewrite !lookup_insert_ne by done. exact Hb.
Qed.

Lemma offsetof_after_plain_NULL :
  pp_active after_plain_NULL = true /\
  pp_macros after_plain_NULL !! _XCC_STDDEF_H = None /\
  pp_macros after_plain_NULL !! "__builtin_offsetof"%string = None /\
  pp_macros after_plain_NULL !! keyword_name KW_struct = None /\
  pp_macros (include_stddef after_plain_NULL) !! "S"%string = None /\
  pp_macros (include_stddef after_plain_NULL) !! "b"%string = None /\
  expression_in (pp_macros (include_stddef after_plain_NULL)) ∅ (use_offsetof "S" "b") =
    Some (E_offsetof (Tstruct "S") "b").
Proof.
  destruct after_plain_NULL_ready as (Ha & Hg & _).
  assert (Hb : pp_macros after_plain_NULL !! "__builtin_offsetof"%string = None)
    by (vm_compute; reflexivity).
  assert (Hs : pp_macros after_plain_NULL !! keyword_name KW_struct = None)
    by (vm_compute; reflexivity).
  assert (Ht : pp_macros (include_stddef after_plain_NULL) !! "S"%string = None)
    by (vm_compute; reflexivity).
  assert (Hm : pp_macros (include_stddef after_plain_NULL) !! "b"%string = None)
    by (vm_compute; reflexivity).
  repeat (split; [assumption |]).
  exact (offsetof_after_inclusion after_plain_NULL ∅ "S" "b" Ha Hg Hb Hs Ht Hm).
Defined.
